(** * gosrvlib, package [filter]: a shallow embedding and its properties

    The development follows [pkg/filter]: the processor of [filter.go]
    ([ParseURLQuery], [ApplySubset], [checkRulesCount], [filterSliceValue],
    [evaluateRules], [evaluateRule]) and the evaluators of
    [evaluate_gte.go] and [evaluate_hassuffix.go].

    Go values that travel as [interface{}] are a tagged union ([value]);
    the variable a pointer refers to lives in a store ([gmap loc value]);
    a Go function returning [(x, err)] returns a pair whose second
    component is an [option error]; a call that can panic returns an
    [outcome]. *)

From Stdlib Require Import ZArith String Ascii List Bool Lia.
From Stdlib Require Import Floats.SpecFloat.
From stdpp Require Import base option list gmap strings.

Set Warnings "-register-all".
Local Open Scope Z_scope.

(** ** Go runtime values *)

(** A 64-bit IEEE-754 number, as the specification floats of the
    Standard Library (precision 53, maximal exponent 1024). *)
Definition float64 := spec_float.
Definition prec64 : Z := 53.
Definition emax64 : Z := 1024.

(** Locations of addressable variables. *)
Definition loc := positive.

(** The kinds of [reflect.Kind] the package distinguishes. [Invalid] is the
    kind of the zero [reflect.Value]. *)
Inductive Kind :=
| Invalid | KBool | KInt | KUint | KFloat32 | KFloat64 | KString
| KArray | KMap | KSlice | KPtr | KStruct | KOther.

Definition Kind_eqb (a b : Kind) : bool :=
  match a, b with
  | Invalid, Invalid | KBool, KBool | KInt, KInt | KUint, KUint
  | KFloat32, KFloat32 | KFloat64, KFloat64 | KString, KString
  | KArray, KArray | KMap, KMap | KSlice, KSlice | KPtr, KPtr
  | KStruct, KStruct | KOther, KOther => true
  | _, _ => false
  end.

(** A dynamic Go value.  A slice carries the elements below its length
    and, separately, the rest of its backing array up to its capacity;
    [None] is the nil slice, the nil map or the nil pointer. *)
Inductive value :=
| VNil
| VBool (b : bool)
| VInt (n : Z)
| VUint (n : Z)
| VFloat32 (f : float64)
| VFloat64 (f : float64)
| VString (s : string)
| VNamedString (tname : string) (s : string)
| VArray (elems : list value)
| VMap (entries : option (list (value * value)))
| VSlice (cells : option (list value * list value))
| VPtr (target : option loc)
| VStruct (fields : list (string * value))
| VOther (descr : string).

(** [reflect.ValueOf(v).Kind()] *)
Definition kindOf (v : value) : Kind :=
  match v with
  | VNil => Invalid
  | VBool _ => KBool
  | VInt _ => KInt
  | VUint _ => KUint
  | VFloat32 _ => KFloat32
  | VFloat64 _ => KFloat64
  | VString _ | VNamedString _ _ => KString
  | VArray _ => KArray
  | VMap _ => KMap
  | VSlice _ => KSlice
  | VPtr _ => KPtr
  | VStruct _ => KStruct
  | VOther _ => KOther
  end.

(** [reflect.Value.Len] on the kinds that have a length. *)
Definition valueLen (v : value) : option Z :=
  match v with
  | VString s | VNamedString _ s => Some (Z.of_nat (String.length s))
  | VArray elems => Some (Z.of_nat (length elems))
  | VMap None => Some 0
  | VMap (Some entries) => Some (Z.of_nat (length entries))
  | VSlice None => Some 0
  | VSlice (Some (elems, _)) => Some (Z.of_nat (length elems))
  | _ => None
  end.

(** ** Errors and outcomes *)

(** Go [error] values: the package's sentinel, errors made by
    [errors.New] / [fmt.Errorf] without [%w], and errors wrapping another
    one with [%w]. *)
Inductive error :=
| errFieldNotFound
| errorString (msg : string)
| wrapError (msg : string) (inner : error).

Fixpoint error_eqb (a b : error) : bool :=
  match a, b with
  | errFieldNotFound, errFieldNotFound => true
  | errorString m, errorString m' => String.eqb m m'
  | wrapError m e, wrapError m' e' => String.eqb m m' && error_eqb e e'
  | _, _ => false
  end.

(** The chain [errors.Is] walks: [e], then what it wraps, and so on. *)
Fixpoint error_chain_has (e target : error) : bool :=
  error_eqb e target ||
  match e with
  | wrapError _ inner => error_chain_has inner target
  | _ => false
  end.

(** [errors.Is(err, target)]; a nil [err] is no error at all. *)
Definition errors_Is (err : option error) (target : error) : bool :=
  match err with
  | None => false
  | Some e => error_chain_has e target
  end.

(** The result of a call: it returns, or it panics. *)
Inductive outcome (A : Type) :=
| Returns (a : A)
| Panics (msg : string).
Arguments Returns {A} a.
Arguments Panics {A} msg.

(** What the platform yields for [int(f)] when [int] cannot represent the
    [float64] [f]: the language leaves this value to the implementation. *)
Class Platform := intUnrepresentable : float64 -> Z.

(** ** Type coercion utilities *)

Module Coercion.

(** Modelled from the spec: [isNil] (util.go is not among the sources):
    "true if v is untyped nil or a nil-valued pointer/interface/map/slice". *)
Definition isNil (v : value) : bool :=
  match v with
  | VNil => true
  | VPtr None => true
  | VMap None => true
  | VSlice None => true
  | _ => false
  end.

(** [float64(n)] for an integer [n]: rounding to nearest, ties to even. *)
Definition float64_of_Z (n : Z) : float64 :=
  binary_normalize prec64 emax64 n 0 false.

(** Modelled from the spec: [convertValue] (util.go is not among the
    sources): "any of the built-in signed/unsigned integer and
    floating-point kinds is converted to a 64-bit float for comparison;
    non-numeric scalars are left as-is". *)
Definition convertValue (v : value) : value :=
  match v with
  | VInt n | VUint n => VFloat64 (float64_of_Z n)
  | VFloat32 f | VFloat64 f => VFloat64 f
  | _ => v
  end.

(** Modelled from the spec: [convertFloatValue] (util.go is not among the
    sources): numeric operators "require the supplied reference to itself
    be convertible to a number; construction fails with a type error
    otherwise". *)
Definition convertFloatValue (v : value) : float64 * option error :=
  match convertValue v with
  | VFloat64 f => (f, None)
  | _ => (S754_zero false, Some (errorString "rule should have numerical value"))
  end.

Definition minInt : Z := - 2 ^ 63.
Definition maxInt : Z := 2 ^ 63 - 1.

(** The integer part of a finite float, rounded toward zero. *)
Definition truncate (f : float64) : option Z :=
  match f with
  | S754_zero _ => Some 0
  | S754_finite s m e =>
      let mag := if 0 <=? e then Z.pos m * 2 ^ e else Z.pos m / 2 ^ (- e) in
      Some (if s then - mag else mag)
  | S754_infinity _ | S754_nan => None
  end.

(** The Go conversion [int(f)] of a [float64] to a 64-bit [int]. *)
Definition int_of_float64 `{Platform} (f : float64) : Z :=
  match truncate f with
  | Some z => if (minInt <=? z) && (z <=? maxInt) then z else intUnrepresentable f
  | None => intUnrepresentable f
  end.

End Coercion.

(** ** The evaluator family *)

(** The [Evaluator] interface: one method, total and without error. *)
Class Evaluator (E : Type) := Evaluate : E -> value -> bool.

(** *** evaluate_hassuffix.go *)

Module HasSuffix.

(** [strings.HasSuffix(s, suffix)]:
    [len(s) >= len(suffix) && s[len(s)-len(suffix):] == suffix]. *)
Definition strings_HasSuffix (s suffix : string) : bool :=
  (String.length suffix <=? String.length s)%nat &&
  String.eqb
    (substring (String.length s - String.length suffix) (String.length suffix) s)
    suffix.

Record evalHasSuffix := { ref : string }.

(** The type assertion [r.(string)]: it holds for a value whose dynamic
    type is [string] itself. *)
Definition assertString (r : value) : string * bool :=
  match r with
  | VString str => (str, true)
  | _ => (EmptyString, false)
  end.

(** The message of the type error; the source also prints the offending
    value and its type. *)
Definition typeErrorMessage : string :=
  "rule of type hasSuffix should have string value".

Definition newHasSuffix (r : value) : option evalHasSuffix * option error :=
  let '(str, ok) := assertString r in
  if negb ok then (None, Some (errorString typeErrorMessage))
  else (Some {| ref := str |}, None).

#[global] Instance evalHasSuffix_Evaluator : Evaluator evalHasSuffix :=
  fun e v =>
    let '(s, ok) := assertString v in
    if negb ok then false
    else strings_HasSuffix s (ref e).

End HasSuffix.

(** *** evaluate_gte.go *)

Module GTE.
Import Coercion.

Record gte := { ref : float64 }.

Definition newGTE (r : value) : option gte * option error :=
  let '(v, err) := convertFloatValue r in
  match err with
  | Some e => (None, Some e)
  | None => (Some {| ref := v |}, None)
  end.

(** [a >= b] on [float64]: false when either side is a NaN. *)
Definition float64_ge (a b : float64) : bool := SFleb b a.

Definition gte_Evaluate `{Platform} (e : gte) (v : value) : bool :=
  let v := convertValue v in
  if isNil v then false
  else
    match kindOf v with
    | KFloat64 =>
        match v with
        | VFloat64 f => float64_ge f (ref e)
        | _ => false
        end
    | KArray | KMap | KSlice | KString =>
        match valueLen v with
        | Some len => len >=? int_of_float64 (ref e)
        | None => false
        end
    | _ => false
    end.

#[global] Instance gte_Evaluator `{Platform} : Evaluator gte := gte_Evaluate.

(** The kinds whose length [gte.Evaluate] compares. *)
Definition hasLength (v : value) : bool :=
  match kindOf v with
  | KArray | KMap | KSlice | KString => true
  | _ => false
  end.

(** Following the spec's words: "result equals L OP r", here [L >= r],
    the length taken as a number. *)
Definition lengthGTE (L : Z) (r : float64) : bool :=
  float64_ge (float64_of_Z L) r.

(** The reference 4.5 *)
Definition four_and_a_half : float64 := S754_finite false 5066549580791808 (-50).

End GTE.

(** ** reflect.Value *)

(** The store of addressable variables. *)
Abbreviation heap := (gmap loc value).

(** A [reflect.Value]: the zero Value, or a value together with the
    location it was read from when it is addressable. *)
Inductive rvalue :=
| RZero
| RVal (v : value) (addr : option loc).

(** [reflect.ValueOf(i)]: the zero Value for a nil interface. *)
Definition reflect_ValueOf (i : value) : rvalue :=
  match i with
  | VNil => RZero
  | _ => RVal i None
  end.

Definition rvalue_Kind (v : rvalue) : Kind :=
  match v with
  | RZero => Invalid
  | RVal x _ => kindOf x
  end.

(** [Value.Type()] is only used to print the type: its text is not
    modelled, its panic on the zero Value is. *)
Definition rvalue_Type (v : rvalue) : outcome string :=
  match v with
  | RZero => Panics "reflect: call of reflect.Value.Type on zero Value"
  | RVal _ _ => Returns "type"
  end.

(** [Value.Elem()] on a pointer: the zero Value for a nil pointer,
    otherwise the addressable variable it points to (a location outside
    the store reads as the zero Value). *)
Definition rvalue_Elem (h : heap) (v : rvalue) : rvalue :=
  match v with
  | RVal (VPtr (Some l)) _ =>
      match h !! l with
      | Some x => RVal x (Some l)
      | None => RZero
      end
  | _ => RZero
  end.

(** ** filter.go *)

Module Filter.

(** Modelled from the spec: the [Rule] struct (rule.go is not among the
    sources): "Attributes: Field (dotted/plain field name, string), Type
    (operator kind), Value (arbitrary reference value)". *)
Record Rule := { Field : string; Type_ : string; Value : value }.

(** A call of [evaluateRule] on a record, in the order the calls happen. *)
Definition trace := list (Rule * value).

Definition defaultMaxRules : Z := 3.
Definition DefaultURLQueryFilterKey : string := "filter".
Definition defaultMaxResults : Z := 2 ^ 31 - 1.

(** The collaborators of this file: the field accessor behind
    [Processor.fields], the rules' own [Evaluate] method and the JSON
    decoder. *)
Class FieldGetter (fieldGetter : Type) := {
  fieldGetter_zero : fieldGetter;
  GetFieldValue : fieldGetter -> value -> string -> value * option error
}.
Class RuleMethods := Rule_Evaluate : Rule -> value -> bool * option error.
Class JSONDecoder :=
  json_Unmarshal : string -> option (list (list Rule)) * option error.

Record Processor (fieldGetter : Type) := {
  fields : fieldGetter;
  maxRules : Z;
  maxResults : Z;
  urlQueryFilterKey : string
}.
Arguments fields {fieldGetter} p.
Arguments maxRules {fieldGetter} p.
Arguments maxResults {fieldGetter} p.
Arguments urlQueryFilterKey {fieldGetter} p.

Section Processor.
Context {fieldGetter : Type} `{!FieldGetter fieldGetter}.
Context `{!RuleMethods} `{!JSONDecoder}.
Implicit Type p : Processor fieldGetter.

(** An [Option] updates the processor under construction or fails. *)
Definition Option := Processor fieldGetter -> Processor fieldGetter * option error.

Fixpoint applyOptions (opts : list Option) p
  : option (Processor fieldGetter) * option error :=
  match opts with
  | [] => (Some p, None)
  | opt :: rest =>
      let '(p', err) := opt p in
      match err with
      | Some e => (None, Some e)
      | None => applyOptions rest p'
      end
  end.

Definition New (opts : list Option) : option (Processor fieldGetter) * option error :=
  applyOptions opts
    {| fields := fieldGetter_zero;
       maxRules := defaultMaxRules;
       maxResults := defaultMaxResults;
       urlQueryFilterKey := DefaultURLQueryFilterKey |}.

(** [url.Values.Get]: the first value of the key, the empty string when
    there is none. *)
Definition Values_Get (q : gmap string (list string)) (key : string) : string :=
  match q !! key with
  | Some (v :: _) => v
  | _ => EmptyString
  end.

Definition ParseJSON (s : string) : option (list (list Rule)) * option error :=
  let '(r, err) := json_Unmarshal s in
  match err with
  | Some e => (None, Some (wrapError "failed unmarshaling rules" e))
  | None => (r, None)
  end.

Definition ParseURLQuery p (q : gmap string (list string))
  : option (list (list Rule)) * option error :=
  let value := Values_Get q (urlQueryFilterKey p) in
  if String.eqb value EmptyString then (None, None)
  else ParseJSON value.

Definition evaluateRule p (rule : Rule) (obj : value)
  : (bool * option error) * trace :=
  let '(value, err) := GetFieldValue (fields p) obj (Field rule) in
  (if errors_Is err errFieldNotFound then (false, None)
   else match err with
        | Some e => (false, Some e)
        | None => Rule_Evaluate rule value
        end,
   [(rule, obj)]).

(** The inner loop of [evaluateRules] over one group: the value of
    [orResult] when the loop ends, or the error that ends the call. *)
Fixpoint evaluateGroup p (group : list Rule) (obj : value)
  : (bool * option error) * trace :=
  match group with
  | [] => ((false, None), [])
  | rule :: rest =>
      let '((matched, err), t) := evaluateRule p rule obj in
      match err with
      | Some e => ((false, Some e), t)
      | None =>
          if matched then ((true, None), t)
          else let '(r, t') := evaluateGroup p rest obj in (r, t ++ t')
      end
  end.

Fixpoint evaluateRules p (rules : list (list Rule)) (obj : value)
  : (bool * option error) * trace :=
  match rules with
  | [] => ((true, None), [])
  | group :: rest =>
      let '((orResult, err), t) := evaluateGroup p group obj in
      match err with
      | Some e => ((false, Some e), t)
      | None =>
          if negb orResult then ((false, None), t)
          else let '(r, t') := evaluateRules p rest obj in (r, t ++ t')
      end
  end.

Definition checkRulesCount p (rules : list (list Rule)) : option error :=
  let count := fold_left (fun count group => count + Z.of_nat (length group)) rules 0 in
  if maxRules p <? count then Some (errorString "too many rules")
  else None.

(** The variables of [filterSliceValue]'s loop: the elements of the slice
    (below its length), and the counters.  [n] and [m] start at 0 and only
    grow by one, at most once per element, so they stay far below the
    range of [int] and are natural numbers here; [skip] is an [int]
    that is only decremented while positive. *)
Record loopState := {
  elems : list value;
  skip : Z;
  n : nat;
  m : nat
}.

(** The loop [for i := 0; i < slice.Len(); i++] with [todo] iterations
    left, that is [todo = slice.Len() - i].  It ends with the state
    reached and the error of the matcher, if any; [slice.Index] panics
    out of range. *)
Fixpoint filterLoop (matcher : value -> (bool * option error) * trace)
    (length : Z) (todo i : nat) (st : loopState)
  : outcome (loopState * option error) * trace :=
  match todo with
  | O => (Returns (st, None), [])
  | S todo' =>
      match elems st !! i with
      | None => (Panics "reflect: slice index out of range", [])
      | Some value =>
          let '((matched, err), t) := matcher value in
          let continue st' :=
            let '(r, t') := filterLoop matcher length todo' (S i) st' in
            (r, t ++ t') in
          match err with
          | Some e => (Returns (st, Some e), t)
          | None =>
              if negb matched then continue st
              else
                let st := {| elems := elems st; skip := skip st;
                             n := n st; m := S (m st) |} in
                if 0 <? skip st then
                  continue {| elems := elems st; skip := skip st - 1;
                              n := n st; m := m st |}
                else if Z.of_nat (n st) <? length then
                  match elems st !! n st with
                  | None => (Panics "reflect: slice index out of range", t)
                  | Some _ =>
                      continue {| elems := <[n st := value]> (elems st);
                                  skip := skip st;
                                  n := S (n st); m := m st |}
                  end
                else continue st
          end
      end
  end.

(** The elements of a slice below its length, and the rest of its
    backing array; the nil slice has neither. *)
Definition sliceElems (cells : option (list value * list value)) : list value :=
  fst (default ([], []) cells).
Definition sliceSpare (cells : option (list value * list value)) : list value :=
  snd (default ([], []) cells).

(** The slice a header shows once its backing array and length changed: a
    nil slice has no backing array to write to and stays nil. *)
Definition reslice (cells : option (list value * list value))
    (els spare : list value) : value :=
  VSlice (match cells with
          | None => None
          | Some _ => Some (els, spare)
          end).

(** [filterSliceValue] on an addressable slice.  The writes of the loop
    land in the backing array as they happen, so they are in the store
    also when the matcher fails; [SetLen] only moves the length: the
    elements past it stay in the backing array. *)
Definition filterSliceValue p (slice : rvalue) (offset length : Z)
    (matcher : value -> (bool * option error) * trace) (h : heap)
  : outcome (Z * Z * option error) * heap * trace :=
  match slice with
  | RVal (VSlice cells) (Some l) =>
      let '(r, t) :=
        filterLoop matcher length (Datatypes.length (sliceElems cells)) 0
          {| elems := sliceElems cells; skip := offset; n := 0; m := 0 |} in
      match r with
      | Panics msg => (Panics msg, h, t)
      | Returns (st, Some e) =>
          (Returns (0, 0, Some e),
           <[l := reslice cells (elems st) (sliceSpare cells)]> h, t)
      | Returns (st, None) =>
          if (Datatypes.length (elems st ++ sliceSpare cells) <? n st)%nat then
            (Panics "reflect: slice length out of range in SetLen",
             <[l := reslice cells (elems st) (sliceSpare cells)]> h, t)
          else
            (Returns (Z.of_nat (n st), Z.of_nat (m st), None),
             <[l := reslice cells (take (n st) (elems st))
                            (drop (n st) (elems st) ++ sliceSpare cells)]> h,
             t)
      end
  | _ => (Panics "reflect: call of reflect.Value.Len on a non-slice Value", h, [])
  end.

Definition ApplySubset p (rules : list (list Rule))
    (slicePtr : value) (offset length : Z) (h : heap)
  : outcome (Z * Z * option error) * heap * trace :=
  if offset <? 0 then
    (Returns (0, 0, Some (errorString "offset must be positive")), h, [])
  else if length <? 1 then
    (Returns (0, 0, Some (errorString "length must be strictly positive")), h, [])
  else
    match checkRulesCount p rules with
    | Some err => (Returns (0, 0, Some err), h, [])
    | None =>
        let notSlicePointer (vSlicePtr : rvalue) :=
          match rvalue_Type vSlicePtr with
          | Panics msg => (Panics msg, h, [])
          | Returns _ =>
              (Returns (0, 0, Some (errorString
                 "slicePtr should be a slice pointer")), h, [])
          end in
        let vSlicePtr := reflect_ValueOf slicePtr in
        if negb (Kind_eqb (rvalue_Kind vSlicePtr) KPtr) then notSlicePointer vSlicePtr
        else
          let vSlice := rvalue_Elem h vSlicePtr in
          if negb (Kind_eqb (rvalue_Kind vSlice) KSlice) then notSlicePointer vSlicePtr
          else
            let matcher := fun obj => evaluateRules p rules obj in
            filterSliceValue p vSlice offset length matcher h
    end.

(** [Apply]: [ApplySubset] from offset 0 with the configured maximum. *)
Definition Apply p (rules : list (list Rule)) (slicePtr : value)
    (h : heap) : outcome (Z * Z * option error) * heap * trace :=
  ApplySubset p rules slicePtr 0 (maxResults p) h.

(** ** Vocabulary of the properties *)

(** The verdict of a rule on a record, and whether it came without error. *)
Definition verdict p (obj : value) (rule : Rule) : bool :=
  fst (fst (evaluateRule p rule obj)).
Definition clean p (obj : value) (rule : Rule) : Prop :=
  snd (fst (evaluateRule p rule obj)) = None.

(** Following the spec's words: the outer sequence combined with AND, each
    inner sequence with OR. *)
Definition andOfOrs p (rules : list (list Rule)) (obj : value) : bool :=
  forallb (existsb (verdict p obj)) rules.

(** The calls a list of rules stands for when each of them is evaluated. *)
Definition callsOf (obj : value) (group : list Rule) : trace :=
  map (fun rule => (rule, obj)) group.

(** A group passes exactly when some rule matches after clean non-matches. *)
Definition groupPasses p (obj : value) (group : list Rule) : Prop :=
  ∃ pre rule post,
    group = pre ++ rule :: post ∧
    Forall (fun x => fst (evaluateRule p x obj) = (false, None)) pre ∧
    fst (evaluateRule p rule obj) = (true, None).

(** The three components of what a matcher returns on a record. *)
Definition matches (matcher : value -> (bool * option error) * trace)
    (obj : value) : bool := fst (fst (matcher obj)).
Definition matcherError (matcher : value -> (bool * option error) * trace)
    (obj : value) : option error := snd (fst (matcher obj)).
Definition matcherCalls (matcher : value -> (bool * option error) * trace)
    (objs : list value) : trace :=
  concat (map (fun obj => snd (matcher obj)) objs).

(** What the loop retains of the matching records still to come, from a
    given [skip] and a given count [n] of records already retained. *)
Fixpoint select (length skip : Z) (n : nat) (ms : list value) : list value :=
  match ms with
  | [] => []
  | v :: ms' =>
      if 0 <? skip then select length (skip - 1) n ms'
      else if Z.of_nat n <? length then v :: select length skip (S n) ms'
      else select length skip n ms'
  end.

(** One iteration of the loop on a record whose evaluation raises no error. *)
Definition advance (matcher : value -> (bool * option error) * trace)
    (length : Z) (st : loopState) (v : value) : loopState :=
  if matches matcher v then
    if 0 <? skip st then
      {| elems := elems st; skip := skip st - 1; n := n st; m := S (m st) |}
    else if Z.of_nat (n st) <? length then
      {| elems := <[n st := v]> (elems st); skip := skip st;
         n := S (n st); m := S (m st) |}
    else {| elems := elems st; skip := skip st; n := n st; m := S (m st) |}
  else st.

(** The verdict of the whole rule set on a record, and its error. *)
Definition passes p (rules : list (list Rule)) (obj : value) : bool :=
  matches (evaluateRules p rules) obj.
Definition raises p (rules : list (list Rule)) (obj : value) : option error :=
  matcherError (evaluateRules p rules) obj.

(** The page of the matching records a call retains. *)
Definition page (offset length : Z) (matching : list value) : list value :=
  take (Z.to_nat length) (drop (Z.to_nat offset) matching).

(** [slicePtr] is a pointer to a slice of the store. *)
Definition pointsToSlice (h : heap) (slicePtr : value) : bool :=
  match slicePtr with
  | VPtr (Some l) =>
      match h !! l with
      | Some (VSlice _) => true
      | _ => false
      end
  | _ => false
  end.

(** The elements of the slice a target points to in a store; nothing when
    the target is not a pointer to a slice. *)
Definition targetElems (h : heap) (slicePtr : value) : list value :=
  match slicePtr with
  | VPtr (Some l) =>
      match h !! l with
      | Some (VSlice cells) => sliceElems cells
      | _ => []
      end
  | _ => []
  end.

End Processor.

(** ** A concrete setting for the examples

    Records are structs, a field is looked up by name, and a rule builds
    its evaluator from its operator name the first time it is used. *)

Definition amd64 : Platform := fun _ => Coercion.minInt.

Fixpoint lookupField (name : string) (fs : list (string * value)) : option value :=
  match fs with
  | [] => None
  | (k, v) :: rest => if String.eqb k name then Some v else lookupField name rest
  end.

Definition structFields : FieldGetter unit := {|
  fieldGetter_zero := tt;
  GetFieldValue := fun _ obj name =>
    match obj with
    | VStruct fs =>
        match lookupField name fs with
        | Some v => (v, None)
        | None => (VNil, Some (wrapError "field lookup" errFieldNotFound))
        end
    | _ => (VNil, Some (errorString "the record is not a struct"))
    end
|}.

Definition operatorRules : RuleMethods := fun rule v =>
  if String.eqb (Type_ rule) "gte" then
    match GTE.newGTE (Value rule) with
    | (Some e, None) => (Evaluate (Evaluator := GTE.gte_Evaluator (H := amd64)) e v, None)
    | (_, err) => (false, err)
    end
  else if String.eqb (Type_ rule) "hasSuffix" then
    match HasSuffix.newHasSuffix (Value rule) with
    | (Some e, None) => (Evaluate e v, None)
    | (_, err) => (false, err)
    end
  else (false, Some (errorString "unknown rule type")).

Definition noJSON : JSONDecoder := fun s =>
  if String.eqb s "[]" then (Some [], None)
  else (None, Some (errorString "invalid character")).

Definition defaultProcessor : Processor unit :=
  {| fields := tt;
     maxRules := defaultMaxRules;
     maxResults := defaultMaxResults;
     urlQueryFilterKey := DefaultURLQueryFilterKey |}.

(** Records [{n: k}] and the rules [n >= k]. *)
Definition rec_n (k : Z) : value := VStruct [("n"%string, VInt k)].
Definition rule_n_gte (k : Z) : Rule :=
  {| Field := "n"; Type_ := "gte"; Value := VInt k |}.

(** A store with the slice [{1}, {4}, {5}, {9}] of capacity 5 at location 1. *)
Definition demoHeap : heap :=
  {[ 1%positive := VSlice (Some ([rec_n 1; rec_n 4; rec_n 5; rec_n 9], [rec_n 77])) ]}.

(** A rule on a field the records do not have, and a store whose slice
    holds something that is not a struct. *)
Definition rule_missing : Rule :=
  {| Field := "missing"; Type_ := "gte"; Value := VInt 0 |}.
Definition mixedHeap : heap :=
  {[ 1%positive := VSlice (Some ([rec_n 1; rec_n 4; VInt 7; rec_n 9], [])) ]}.

Definition emptyHeap : heap := {[ 1%positive := VSlice (Some ([], [rec_n 77])) ]}.
Definition withMaxRules (limit : Z) : Option (fieldGetter := unit) := fun p =>
  if limit <? 1 then (p, Some (errorString "maxRules must be at least 1"))
  else ({| fields := fields p; maxRules := limit; maxResults := maxResults p;
           urlQueryFilterKey := urlQueryFilterKey p |}, None).

(** ** Properties of the two-level evaluation *)

Section Properties.
Context {fieldGetter : Type} `{!FieldGetter fieldGetter}.
Context `{!RuleMethods} `{!JSONDecoder}.
Implicit Type p : Processor fieldGetter.

Lemma evaluateRule_trace p rule obj :
  snd (evaluateRule p rule obj) = [(rule, obj)].
Proof.
  unfold evaluateRule. destruct (GetFieldValue _ _ _) as [v err]. reflexivity.
Qed.

Lemma evaluateRule_split p rule obj :
  evaluateRule p rule obj =
  ((verdict p obj rule, snd (fst (evaluateRule p rule obj))), [(rule, obj)]).
Proof.
  unfold verdict. rewrite <- (evaluateRule_trace p rule obj).
  destruct (evaluateRule p rule obj) as [[b e] t]. reflexivity.
Qed.

Lemma evaluateGroup_clean p group obj :
  Forall (clean p obj) group →
  fst (evaluateGroup p group obj) = (existsb (verdict p obj) group, None).
Proof.
  induction 1 as [|rule rest Hr _ IH]; simpl; [reflexivity|].
  rewrite evaluateRule_split. unfold clean in Hr. rewrite Hr.
  destruct (verdict p obj rule); simpl; [reflexivity|].
  destruct (evaluateGroup p rest obj) as [r t']. simpl in *. exact IH.
Qed.

Lemma evaluateRules_clean p rules obj :
  Forall (Forall (clean p obj)) rules →
  fst (evaluateRules p rules obj) = (andOfOrs p rules obj, None).
Proof.
  induction 1 as [|group rest Hg _ IH]; simpl; [reflexivity|].
  pose proof (evaluateGroup_clean p group obj Hg) as Hgrp.
  destruct (evaluateGroup p group obj) as [[o e] t]. simpl in Hgrp.
  injection Hgrp as -> ->.
  destruct (existsb (verdict p obj) group); simpl; [|reflexivity].
  destruct (evaluateRules p rest obj) as [r t']. simpl in *. exact IH.
Qed.

(** Within a group the loop breaks at the first rule that matches. *)
Lemma evaluateGroup_first_match p pre rule post obj :
  Forall (fun x => fst (evaluateRule p x obj) = (false, None)) pre →
  fst (evaluateRule p rule obj) = (true, None) →
  evaluateGroup p (pre ++ rule :: post) obj
  = ((true, None), callsOf obj (pre ++ [rule])).
Proof.
  intros Hpre Hrule. induction Hpre as [|x pre Hx _ IH]; simpl.
  - rewrite evaluateRule_split in Hrule |- *. simpl in Hrule.
    injection Hrule as -> ->. reflexivity.
  - rewrite evaluateRule_split in Hx |- *. simpl in Hx.
    injection Hx as -> ->. rewrite IH. reflexivity.
Qed.

(** A group without a match ends the evaluation of the record. *)
Lemma evaluateRules_first_failure p before group after obj :
  Forall (fun g => fst (evaluateGroup p g obj) = (true, None)) before →
  fst (evaluateGroup p group obj) = (false, None) →
  evaluateRules p (before ++ group :: after) obj
  = ((false, None),
     concat (map (fun g => snd (evaluateGroup p g obj)) (before ++ [group]))).
Proof.
  intros Hbefore Hgroup. induction Hbefore as [|g before Hg _ IH]; simpl.
  - destruct (evaluateGroup p group obj) as [[o e] t]. simpl in Hgroup.
    injection Hgroup as -> ->. simpl. rewrite app_nil_r. reflexivity.
  - destruct (evaluateGroup p g obj) as [[o e] t]. simpl in Hg.
    injection Hg as -> ->. simpl. rewrite IH. reflexivity.
Qed.

Lemma evaluateGroup_passes p group obj :
  fst (evaluateGroup p group obj) = (true, None) ↔ groupPasses p obj group.
Proof.
  split.
  - induction group as [|x rest IH]; simpl; [discriminate|].
    destruct (evaluateRule p x obj) as [[b e] t] eqn:Hx.
    destruct e as [e|]; [discriminate|].
    destruct b.
    + intros _. exists [], x, rest. rewrite Hx. auto.
    + destruct (evaluateGroup p rest obj) as [r t']. simpl in *.
      intros Hr. destruct (IH Hr) as (pre & rule & post & -> & Hpre & Hrule).
      exists (x :: pre), rule, post. split; [reflexivity|]. split; [|exact Hrule].
      constructor; [rewrite Hx; reflexivity | exact Hpre].
  - intros (pre & rule & post & -> & Hpre & Hrule).
    rewrite (evaluateGroup_first_match p pre rule post obj Hpre Hrule). reflexivity.
Qed.

Lemma evaluateRules_passes p rules obj :
  fst (evaluateRules p rules obj) = (true, None) ↔ Forall (groupPasses p obj) rules.
Proof.
  induction rules as [|group rest IH]; simpl.
  - split; [constructor | reflexivity].
  - rewrite Forall_cons, <- IH, <- evaluateGroup_passes.
    destruct (evaluateGroup p group obj) as [[o e] t]. simpl.
    destruct e as [e|]; simpl; [split; [discriminate | intros [[=] _]]|].
    destruct o; simpl.
    + destruct (evaluateRules p rest obj) as [r t']. simpl. tauto.
    + split; [discriminate | intros [[=] _]].
Qed.

(** ** Properties of the compaction loop *)

Section Loop.
Variable matcher : value -> (bool * option error) * trace.
Variable length : Z.

Lemma select_full skip n ms :
  skip <= 0 → length <= Z.of_nat n → select length skip n ms = [].
Proof.
  intros Hs Hn. induction ms as [|v ms IH]; simpl; [reflexivity|].
  destruct (Z.ltb_spec 0 skip); [lia|].
  destruct (Z.ltb_spec (Z.of_nat n) length); [lia|]. exact IH.
Qed.

Lemma select_take skip n ms :
  skip <= 0 →
  select length skip n ms = take (Z.to_nat (length - Z.of_nat n)) ms.
Proof.
  intros Hs. revert n. induction ms as [|v ms IH]; intros n; simpl.
  - rewrite take_nil. reflexivity.
  - destruct (Z.ltb_spec 0 skip); [lia|].
    destruct (Z.ltb_spec (Z.of_nat n) length) as [Hlt|Hge].
    + rewrite IH.
      replace (Z.to_nat (length - Z.of_nat n))
        with (S (Z.to_nat (length - Z.of_nat (S n)))) by lia.
      reflexivity.
    + rewrite select_full by lia.
      replace (Z.to_nat (length - Z.of_nat n)) with 0%nat by lia. reflexivity.
Qed.

(** From the start of the loop: the matches after the first [offset],
    up to [length] of them. *)
Lemma select_take_drop offset ms :
  select length offset 0 ms = take (Z.to_nat length) (drop (Z.to_nat offset) ms).
Proof.
  revert offset. induction ms as [|v ms IH]; intros offset.
  - simpl. rewrite drop_nil, take_nil. reflexivity.
  - destruct (Z.ltb_spec 0 offset) as [Hpos|Hle].
    + simpl. destruct (Z.ltb_spec 0 offset); [|lia]. rewrite IH.
      replace (Z.to_nat offset) with (S (Z.to_nat (offset - 1))) by lia.
      reflexivity.
    + rewrite select_take by lia.
      replace (Z.to_nat offset) with 0%nat by lia.
      rewrite Z.sub_0_r. reflexivity.
Qed.

(** The loop on records whose evaluation raises no error. *)
Lemma filterLoop_clean todo : ∀ i st,
  Datatypes.length (elems st) = (i + todo)%nat →
  (n st <= i)%nat →
  Forall (fun obj => matcherError matcher obj = None) (drop i (elems st)) →
  ∃ st',
    filterLoop matcher length todo i st
      = (Returns (st', None), matcherCalls matcher (drop i (elems st))) ∧
    let new := select length (skip st) (n st) (List.filter (matches matcher) (drop i (elems st))) in
    elems st' = take (n st) (elems st) ++ new
                ++ drop (n st + Datatypes.length new) (elems st) ∧
    n st' = (n st + Datatypes.length new)%nat ∧
    m st' = (m st + Datatypes.length (List.filter (matches matcher) (drop i (elems st))))%nat.
Proof.
  induction todo as [|todo IH]; intros i st Hlen Hn Hclean.
  - rewrite drop_ge by lia. exists st. simpl.
    rewrite !Nat.add_0_r, take_drop. auto.
  - destruct (lookup_lt_is_Some_2 (elems st) i ltac:(lia)) as [v Hv].
    rewrite (drop_S _ _ _ Hv) in Hclean |- *.
    apply Forall_cons in Hclean as [Hv_clean Hrest].
    simpl. rewrite Hv.
    unfold matcherError in Hv_clean. unfold matcherCalls. simpl.
    fold (matcherCalls matcher (drop (S i) (elems st))).
    assert (Hmv : matches matcher v = fst (fst (matcher v))) by reflexivity.
    destruct (matcher v) as [[matched err] t]. simpl in Hv_clean, Hmv.
    subst err. rewrite !Hmv. clear Hmv.
    destruct matched; cbn [negb select Datatypes.length].
    + destruct (Z.ltb_spec 0 (skip st)) as [Hskip|Hskip].
      * edestruct (IH (S i) {| elems := elems st; skip := skip st - 1;
                               n := n st; m := S (m st) |})
          as (st' & -> & He & Hn' & Hm'); simpl; [lia | lia | exact Hrest |].
        exists st'. simpl in *. split; [reflexivity|].
        split; [exact He|]. split; [exact Hn' | lia].
      * destruct (Z.ltb_spec (Z.of_nat (n st)) length) as [Hroom|Hfull].
        -- destruct (lookup_lt_is_Some_2 (elems st) (n st) ltac:(lia)) as [w Hw].
           rewrite Hw.
           edestruct (IH (S i) {| elems := <[n st := v]> (elems st);
                                  skip := skip st;
                                  n := S (n st); m := S (m st) |})
             as (st' & Heq & He & Hn' & Hm'); simpl.
           { rewrite length_insert. lia. }
           { lia. }
           { rewrite drop_insert_lt by lia. exact Hrest. }
           simpl in *. rewrite drop_insert_lt in Heq, He, Hn', Hm' by lia.
           rewrite Heq. exists st'. split; [reflexivity|].
           rewrite He, Hn', Hm'.
           rewrite drop_insert_lt by lia.
           erewrite take_S_r by (rewrite list_lookup_insert_eq by lia; reflexivity).
           rewrite take_insert_ge by lia.
           rewrite <- !app_assoc. simpl.
           rewrite <- Nat.add_succ_r.
           split; [reflexivity|]. split; lia.
        -- edestruct (IH (S i) {| elems := elems st; skip := skip st;
                                  n := n st; m := S (m st) |})
             as (st' & -> & He & Hn' & Hm'); simpl; [lia | lia | exact Hrest |].
           exists st'. simpl in *. split; [reflexivity|].
           split; [exact He|]. split; [exact Hn' | lia].
    + destruct (IH (S i) st) as (st' & -> & He & Hn' & Hm'); [lia | lia | exact Hrest |].
      exists st'. split; [reflexivity|]. auto.
Qed.

Lemma filterLoop_step todo i st v :
  elems st !! i = Some v →
  (n st <= i)%nat →
  matcherError matcher v = None →
  filterLoop matcher length (S todo) i st
  = (fst (filterLoop matcher length todo (S i) (advance matcher length st v)),
     snd (matcher v) ++ snd (filterLoop matcher length todo (S i) (advance matcher length st v))).
Proof.
  intros Hv Hn Hclean. simpl. rewrite Hv. unfold advance.
  assert (Hmv : matches matcher v = fst (fst (matcher v))) by reflexivity.
  unfold matcherError in Hclean.
  destruct (matcher v) as [[matched err] t]. simpl in Hclean, Hmv.
  subst err. rewrite Hmv. clear Hmv.
  destruct matched; cbn [negb snd].
  - destruct (0 <? skip st).
    + destruct (filterLoop _ _ _ _ _). reflexivity.
    + destruct (Z.of_nat (n st) <? length).
      * destruct (lookup_lt_is_Some_2 (elems st) (n st)) as [w ->].
        { apply lookup_lt_Some in Hv. lia. }
        destruct (filterLoop _ _ _ _ _). reflexivity.
      * destruct (filterLoop _ _ _ _ _). reflexivity.
  - destruct (filterLoop _ _ _ _ _). reflexivity.
Qed.

Lemma advance_invariant i st v :
  (n st <= i)%nat →
  Datatypes.length (elems (advance matcher length st v)) = Datatypes.length (elems st) ∧
  (n (advance matcher length st v) <= S i)%nat ∧
  drop (S i) (elems (advance matcher length st v)) = drop (S i) (elems st).
Proof.
  intros Hn. unfold advance.
  destruct (matches matcher v); [|auto with lia].
  destruct (0 <? skip st); [simpl; auto with lia|].
  destruct (Z.of_nat (n st) <? length); simpl; [|auto with lia].
  rewrite length_insert, drop_insert_lt by lia. auto with lia.
Qed.

(** The first record whose evaluation raises an error ends the loop: the
    records after it are not evaluated. *)
Lemma filterLoop_error pre : ∀ todo i st x post e,
  Datatypes.length (elems st) = (i + todo)%nat →
  (n st <= i)%nat →
  drop i (elems st) = pre ++ x :: post →
  Forall (fun obj => matcherError matcher obj = None) pre →
  matcherError matcher x = Some e →
  ∃ st',
    filterLoop matcher length todo i st
    = (Returns (st', Some e), matcherCalls matcher (pre ++ [x])).
Proof.
  induction pre as [|v pre IH]; intros todo i st x post e Hlen Hn Hdrop Hpre Hx.
  - assert (Hi : elems st !! i = Some x).
    { rewrite <- (Nat.add_0_r i), <- lookup_drop, Hdrop. reflexivity. }
    destruct todo as [|todo]; [apply lookup_lt_Some in Hi; lia|].
    simpl. rewrite Hi. unfold matcherError in Hx. unfold matcherCalls. simpl.
    destruct (matcher x) as [[matched err] t]. simpl in Hx. subst err.
    exists st. rewrite app_nil_r. reflexivity.
  - assert (Hi : elems st !! i = Some v).
    { rewrite <- (Nat.add_0_r i), <- lookup_drop, Hdrop. reflexivity. }
    destruct todo as [|todo]; [apply lookup_lt_Some in Hi; lia|].
    apply Forall_cons in Hpre as [Hv Hpre].
    destruct (advance_invariant i st v Hn) as (Hlen' & Hn' & Hdrop').
    rewrite (drop_S _ _ _ Hi) in Hdrop. injection Hdrop as Hdrop.
    destruct (IH todo (S i) (advance matcher length st v) x post e) as (st' & Heq); auto.
    { lia. }
    { rewrite Hdrop'. exact Hdrop. }
    exists st'. rewrite (filterLoop_step todo i st v Hi Hn Hv), Heq. reflexivity.
Qed.

(** Either no record raises an error, or there is a first one that does. *)
Lemma first_error (objs : list value) :
  Forall (fun obj => matcherError matcher obj = None) objs ∨
  ∃ pre x post e,
    objs = pre ++ x :: post ∧
    Forall (fun obj => matcherError matcher obj = None) pre ∧
    matcherError matcher x = Some e.
Proof.
  induction objs as [|v objs IH]; [left; constructor|].
  destruct (matcherError matcher v) as [e|] eqn:Hv.
  - right. exists [], v, objs, e. auto.
  - destruct IH as [IH | (pre & x & post & e & -> & Hpre & Hx)].
    + left. constructor; assumption.
    + right. exists (v :: pre), x, post, e. auto.
Qed.

Lemma filterLoop_success_clean todo i st st' t :
  Datatypes.length (elems st) = (i + todo)%nat →
  (n st <= i)%nat →
  filterLoop matcher length todo i st = (Returns (st', None), t) →
  Forall (fun obj => matcherError matcher obj = None) (drop i (elems st)).
Proof.
  intros Hlen Hn Heq.
  destruct (first_error (drop i (elems st)))
    as [Hclean | (pre & x & post & e & Hdrop & Hpre & Hx)]; [exact Hclean|].
  destruct (filterLoop_error pre todo i st x post e Hlen Hn Hdrop Hpre Hx)
    as (st'' & Heq').
  rewrite Heq in Heq'. discriminate.
Qed.

End Loop.

(** ** Properties of the in-place filter *)

Lemma filterSliceValue_clean p l cells offset length matcher h :
  Forall (fun obj => matcherError matcher obj = None) (sliceElems cells) →
  let retained := page offset length (List.filter (matches matcher) (sliceElems cells)) in
  filterSliceValue p (RVal (VSlice cells) (Some l)) offset length matcher h
  = (Returns (Z.of_nat (Datatypes.length retained),
              Z.of_nat (Datatypes.length (List.filter (matches matcher) (sliceElems cells))),
              None),
     <[l := reslice cells retained
              (drop (Datatypes.length retained) (sliceElems cells) ++ sliceSpare cells)]> h,
     matcherCalls matcher (sliceElems cells)).
Proof.
  intros Hclean retained. unfold filterSliceValue.
  destruct (filterLoop_clean matcher length (Datatypes.length (sliceElems cells)) 0
              {| elems := sliceElems cells; skip := offset; n := 0; m := 0 |})
    as (st' & Heq & He & Hn & Hm); simpl; [reflexivity | lia | exact Hclean |].
  cbn [elems skip n m] in Heq, He, Hn, Hm.
  rewrite drop_0 in Heq, He, Hn, Hm. rewrite take_0 in He.
  cbn [app Nat.add] in He, Hn, Hm.
  rewrite select_take_drop in He, Hn.
  fold (page offset length (List.filter (matches matcher) (sliceElems cells))) in He, Hn.
  fold retained in He, Hn.
  rewrite Heq, Hn, Hm, He.
  destruct (Nat.ltb_spec
    (Datatypes.length ((retained ++ drop (Datatypes.length retained) (sliceElems cells))
                         ++ sliceSpare cells))
    (Datatypes.length retained)) as [Hlt|_].
  { rewrite !length_app in Hlt. lia. }
  rewrite take_app_length, drop_app_length. reflexivity.
Qed.

Lemma filterSliceValue_success p l cells offset length matcher h nn mm h' t :
  filterSliceValue p (RVal (VSlice cells) (Some l)) offset length matcher h
  = (Returns (nn, mm, None), h', t) →
  Forall (fun obj => matcherError matcher obj = None) (sliceElems cells).
Proof.
  unfold filterSliceValue.
  destruct (filterLoop _ _ _ _ _) as [[[st [e|]]|msg] t'] eqn:Hloop;
    try discriminate.
  intros _.
  apply (filterLoop_success_clean matcher length _ 0 _ st t') in Hloop;
    simpl; auto with lia.
Qed.

Lemma pointsToSlice_inv h slicePtr :
  pointsToSlice h slicePtr = true →
  ∃ l cells, slicePtr = VPtr (Some l) ∧ h !! l = Some (VSlice cells).
Proof.
  destruct slicePtr as [| | | | | | | | | | |[l|]| |]; try discriminate. simpl.
  destruct (h !! l) as [[]|] eqn:Hl; try discriminate. eauto.
Qed.

(** With valid arguments the call is the loop on the slice. *)
Lemma ApplySubset_valid p rules l cells offset length h :
  0 <= offset → 1 <= length → checkRulesCount p rules = None →
  h !! l = Some (VSlice cells) →
  ApplySubset p rules (VPtr (Some l)) offset length h
  = filterSliceValue p (RVal (VSlice cells) (Some l)) offset length
      (evaluateRules p rules) h.
Proof.
  intros Hoff Hlen Hcount Hl. unfold ApplySubset.
  destruct (Z.ltb_spec offset 0); [lia|].
  destruct (Z.ltb_spec length 1); [lia|].
  rewrite Hcount. simpl. rewrite Hl. reflexivity.
Qed.

(** A call that does not panic and reports no error had valid arguments. *)
Lemma ApplySubset_success_args p rules slicePtr offset length h nn mm h' t :
  ApplySubset p rules slicePtr offset length h = (Returns (nn, mm, None), h', t) →
  0 <= offset ∧ 1 <= length ∧ checkRulesCount p rules = None ∧
  pointsToSlice h slicePtr = true.
Proof.
  unfold ApplySubset.
  destruct (Z.ltb_spec offset 0); [discriminate|].
  destruct (Z.ltb_spec length 1); [discriminate|].
  destruct (checkRulesCount p rules); [discriminate|].
  intros Heq. repeat split; try lia.
  destruct slicePtr as [| | | | | | | | | | |[l|]| |]; try discriminate.
  simpl in *. destruct (h !! l) as [[]|]; simpl in *; try discriminate.
  reflexivity.
Qed.

(** The whole effect of a successful call. *)
Lemma ApplySubset_success p rules slicePtr offset length h nn mm h' t :
  ApplySubset p rules slicePtr offset length h = (Returns (nn, mm, None), h', t) →
  ∃ l cells,
    slicePtr = VPtr (Some l) ∧ h !! l = Some (VSlice cells) ∧
    0 <= offset ∧ 1 <= length ∧ checkRulesCount p rules = None ∧
    Forall (fun obj => raises p rules obj = None) (sliceElems cells) ∧
    let matching := List.filter (passes p rules) (sliceElems cells) in
    let retained := page offset length matching in
    nn = Z.of_nat (Datatypes.length retained) ∧
    mm = Z.of_nat (Datatypes.length matching) ∧
    h' = <[l := reslice cells retained
                  (drop (Datatypes.length retained) (sliceElems cells)
                   ++ sliceSpare cells)]> h ∧
    t = matcherCalls (evaluateRules p rules) (sliceElems cells).
Proof.
  intros Heq.
  destruct (ApplySubset_success_args _ _ _ _ _ _ _ _ _ _ Heq)
    as (Hoff & Hlen & Hcount & Hptr).
  destruct (pointsToSlice_inv _ _ Hptr) as (l & cells & -> & Hl).
  exists l, cells.
  rewrite (ApplySubset_valid p rules l cells offset length h) in Heq by assumption.
  pose proof (filterSliceValue_success _ _ _ _ _ _ _ _ _ _ _ Heq) as Hclean.
  rewrite (filterSliceValue_clean p l cells offset length _ h Hclean) in Heq.
  injection Heq as <- <- <- <-.
  repeat (split; [assumption || reflexivity|]). reflexivity.
Qed.

(** *** Lists kept by a filter *)

Lemma filter_sublist (f : value → bool) (l : list value) :
  List.filter f l `sublist_of` l.
Proof.
  induction l as [|x l IH]; simpl; [constructor|].
  destruct (f x); [apply sublist_skip | apply sublist_cons]; exact IH.
Qed.

Lemma Forall_sublist (P : value → Prop) (k l : list value) :
  k `sublist_of` l → Forall P l → Forall P k.
Proof.
  induction 1 as [|x k l _ IH|x k l _ IH]; intros Hl; [constructor| |];
    apply Forall_cons in Hl as [Hx Hl]; [constructor|]; auto.
Qed.

Lemma filter_all (f : value → bool) (l : list value) :
  Forall (fun x => f x = true) l → List.filter f l = l.
Proof.
  induction 1 as [|x l Hx _ IH]; simpl; [reflexivity|]. rewrite Hx, IH. reflexivity.
Qed.

Lemma filter_Forall (f : value → bool) (l : list value) :
  Forall (fun x => f x = true) (List.filter f l).
Proof.
  induction l as [|x l IH]; simpl; [constructor|].
  destruct (f x) eqn:Hx; [constructor|]; assumption.
Qed.

Lemma page_sublist offset length (l : list value) :
  page offset length l `sublist_of` l.
Proof.
  unfold page. etransitivity; [apply sublist_take | apply sublist_drop].
Qed.

Lemma page_length offset length (l : list value) :
  0 <= length →
  Z.of_nat (Datatypes.length (page offset length l)) <= length ∧
  (Datatypes.length (page offset length l) <= Datatypes.length l)%nat.
Proof.
  intros Hlen. unfold page. rewrite length_take, length_drop. lia.
Qed.

Lemma page_nil offset length : page offset length [] = [].
Proof. unfold page. rewrite drop_nil, take_nil. reflexivity. Qed.

Lemma reslice_len cells (retained spare : list value) :
  (cells = None → retained = []) →
  valueLen (reslice cells retained spare)
  = Some (Z.of_nat (Datatypes.length retained)).
Proof.
  destruct cells as [[els sp]|]; simpl; [reflexivity|].
  intros ->; reflexivity.
Qed.

(** *** The claims on [ApplySubset] *)

(** C1.  A successful [ApplySubset] makes one pass over the slice in index
    order (the calls of the rule evaluation are those of the records, one
    after the other); with [matching] the records that match, in their
    original order, it reports their number as total, retains the page
    that starts after the first [offset] of them and holds at most
    [length], writes that page at the front of the slice and sets the
    length of the slice to the number retained, which it returns; the
    elements past the new length stay in the backing array; the
    retained records are a subsequence of the original ones. *)
Theorem ApplySubset_single_pass p rules slicePtr offset length h nn mm h' t :
  ApplySubset p rules slicePtr offset length h = (Returns (nn, mm, None), h', t) →
  ∃ l cells,
    slicePtr = VPtr (Some l) ∧ h !! l = Some (VSlice cells) ∧
    let matching := List.filter (passes p rules) (sliceElems cells) in
    let retained := page offset length matching in
    t = matcherCalls (evaluateRules p rules) (sliceElems cells) ∧
    mm = Z.of_nat (Datatypes.length matching) ∧
    nn = Z.of_nat (Datatypes.length retained) ∧
    h' = <[l := reslice cells retained
                  (drop (Datatypes.length retained) (sliceElems cells)
                   ++ sliceSpare cells)]> h ∧
    (∃ v', h' !! l = Some v' ∧ valueLen v' = Some nn) ∧
    retained `sublist_of` sliceElems cells.
Proof.
  intros Heq.
  destruct (ApplySubset_success _ _ _ _ _ _ _ _ _ _ Heq)
    as (l & cells & -> & Hl & _ & _ & _ & Hclean & Hn & Hm & Hh & Ht).
  exists l, cells. split; [reflexivity|]. split; [exact Hl|].
  cbv zeta in *. repeat (split; [assumption|]). split.
  - eexists. rewrite Hh, lookup_insert_eq. split; [reflexivity|].
    rewrite Hn. apply reslice_len. intros ->. apply page_nil.
  - etransitivity; [apply page_sublist | apply filter_sublist].
Qed.

(** C6.  A successful call returns counts [n] and [m] with [n <= length],
    [n <= m] and [m] at most the original length of the slice. *)
Theorem ApplySubset_counts p rules l v len offset length h nn mm h' t :
  ApplySubset p rules (VPtr (Some l)) offset length h
    = (Returns (nn, mm, None), h', t) →
  h !! l = Some v → valueLen v = Some len →
  nn <= length ∧ nn <= mm ∧ mm <= len.
Proof.
  intros Heq Hv Hlen.
  destruct (ApplySubset_success _ _ _ _ _ _ _ _ _ _ Heq)
    as (l' & cells & [= <-] & Hl & _ & Hlength & _ & _ & -> & -> & _ & _).
  rewrite Hl in Hv. injection Hv as <-.
  assert (len = Z.of_nat (Datatypes.length (sliceElems cells))) as ->.
  { clear Heq Hl. destruct cells as [[els spare]|]; simpl in Hlen |- *;
      injection Hlen as <-; reflexivity. }
  pose proof (page_length offset length
    (List.filter (passes p rules) (sliceElems cells)) ltac:(lia)) as [H1 H2].
  pose proof (filter_length_le (passes p rules) (sliceElems cells)).
  lia.
Qed.

(** C3.  After a successful call from offset 0 with length [L], the same
    call with a length [L' >= L] on the compacted slice succeeds, leaves
    the store as it is, and returns the former retained count as both
    counts. *)
Theorem ApplySubset_idempotent p rules slicePtr L L' h nn mm h1 t1 :
  ApplySubset p rules slicePtr 0 L h = (Returns (nn, mm, None), h1, t1) →
  L <= L' →
  ∃ t2, ApplySubset p rules slicePtr 0 L' h1 = (Returns (nn, nn, None), h1, t2).
Proof.
  intros Heq HL.
  destruct (ApplySubset_success _ _ _ _ _ _ _ _ _ _ Heq)
    as (l & cells & -> & Hl & _ & Hlength & Hcount & Hclean & Hn & _ & Hh & _).
  cbv zeta in *.
  set (retained := page 0 L (List.filter (passes p rules) (sliceElems cells))) in *.
  set (spare := drop (Datatypes.length retained) (sliceElems cells)
                ++ sliceSpare cells) in *.
  assert (Hsub : retained `sublist_of` sliceElems cells).
  { etransitivity; [apply page_sublist | apply filter_sublist]. }
  assert (Hpass : Forall (fun x => passes p rules x = true) retained).
  { eapply Forall_sublist; [apply page_sublist | apply filter_Forall]. }
  assert (∃ cells1, reslice cells retained spare = VSlice cells1 ∧
            sliceElems cells1 = retained ∧
            reslice cells1 retained (sliceSpare cells1) = VSlice cells1)
    as (cells1 & Hcells1 & Hels1 & Hsame).
  { destruct cells as [[els sp]|]; simpl.
    - exists (Some (retained, spare)). auto.
    - exists None. split; [reflexivity|]. split; [|reflexivity].
      subst retained. simpl. rewrite page_nil. reflexivity. }
  assert (Hl1 : h1 !! l = Some (VSlice cells1)).
  { rewrite Hh, lookup_insert_eq, Hcells1. reflexivity. }
  eexists.
  rewrite (ApplySubset_valid p rules l cells1 0 L' h1) by (assumption || lia).
  rewrite filterSliceValue_clean.
  2:{ rewrite Hels1. eapply Forall_sublist; [exact Hsub | exact Hclean]. }
  cbv zeta. rewrite Hels1.
  change (matches (evaluateRules p rules)) with (passes p rules).
  rewrite (filter_all _ _ Hpass).
  assert (Hpage : page 0 L' retained = retained).
  { unfold page. simpl. rewrite drop_0. apply take_ge.
    pose proof (page_length 0 L (List.filter (passes p rules) (sliceElems cells))
                  ltac:(lia)) as [H1 _].
    fold retained in H1. lia. }
  rewrite Hpage, drop_all, app_nil_l, Hsame, <- Hn.
  rewrite (insert_id h1 l (VSlice cells1) Hl1). reflexivity.
Qed.

(** *** Rule sets with an empty group *)

Lemma evaluateRules_empty_group p rules obj :
  [] ∈ rules → fst (fst (evaluateRules p rules obj)) = false.
Proof.
  induction rules as [|group rest IH]; intros Hin; [inversion Hin|].
  apply elem_of_cons in Hin as [<-|Hin]; [reflexivity|].
  simpl. destruct (evaluateGroup p group obj) as [[o [e|]] t]; [reflexivity|].
  destruct o; simpl; [|reflexivity].
  destruct (evaluateRules p rest obj) as [r t']. simpl in *. auto.
Qed.

Lemma filter_empty_group p rules (objs : list value) :
  [] ∈ rules → List.filter (passes p rules) objs = [].
Proof.
  intros Hin. induction objs as [|x xs IH]; simpl; [reflexivity|].
  unfold passes at 1, matches. rewrite (evaluateRules_empty_group p rules x Hin).
  exact IH.
Qed.

(** C9.  With an empty inner group in the rule set the evaluation of a
    record yields false, whatever the record; a call of [ApplySubset]
    that succeeds with such a rule set returns 0 and 0 and leaves the
    slice with length 0 (its former elements stay in the backing array). *)
Theorem empty_group_matches_nothing p rules :
  [] ∈ rules →
  (∀ obj, fst (fst (evaluateRules p rules obj)) = false) ∧
  (∀ slicePtr offset length h nn mm h' t,
     ApplySubset p rules slicePtr offset length h = (Returns (nn, mm, None), h', t) →
     nn = 0 ∧ mm = 0 ∧
     ∃ l cells,
       slicePtr = VPtr (Some l) ∧ h !! l = Some (VSlice cells) ∧
       h' = <[l := reslice cells [] (sliceElems cells ++ sliceSpare cells)]> h ∧
       valueLen (reslice cells [] (sliceElems cells ++ sliceSpare cells)) = Some 0).
Proof.
  intros Hin. split; [intros obj; apply evaluateRules_empty_group, Hin|].
  intros slicePtr offset length h nn mm h' t Heq.
  destruct (ApplySubset_success _ _ _ _ _ _ _ _ _ _ Heq)
    as (l & cells & -> & Hl & _ & _ & _ & _ & Hn & Hm & Hh & _).
  cbv zeta in *.
  pose proof (filter_empty_group p rules (sliceElems cells) Hin) as Hnone.
  rewrite Hnone, page_nil in Hn, Hh. rewrite Hnone in Hm. simpl in Hn, Hm, Hh.
  rewrite drop_0 in Hh.
  split; [exact Hn|]. split; [exact Hm|].
  exists l, cells. repeat (split; [assumption || reflexivity|]).
  destruct cells as [[els sp]|]; reflexivity.
Qed.

(** *** Errors of the field accessor *)

Lemma evaluateGroup_error p pre rule post obj e :
  Forall (fun x => fst (evaluateRule p x obj) = (false, None)) pre →
  fst (evaluateRule p rule obj) = (false, Some e) →
  fst (evaluateGroup p (pre ++ rule :: post) obj) = (false, Some e).
Proof.
  intros Hpre Hrule. induction Hpre as [|x pre Hx _ IH]; simpl.
  - destruct (evaluateRule p rule obj) as [[b err] t]. simpl in Hrule.
    injection Hrule as -> ->. reflexivity.
  - destruct (evaluateRule p x obj) as [[b err] t]. simpl in Hx.
    injection Hx as -> ->.
    destruct (evaluateGroup p (pre ++ rule :: post) obj) as [r t']. exact IH.
Qed.

Lemma evaluateRules_error p before group after obj e :
  Forall (groupPasses p obj) before →
  fst (evaluateGroup p group obj) = (false, Some e) →
  fst (evaluateRules p (before ++ group :: after) obj) = (false, Some e).
Proof.
  intros Hbefore Hgroup. induction Hbefore as [|g before Hg _ IH]; simpl.
  - destruct (evaluateGroup p group obj) as [[o err] t]. simpl in Hgroup.
    injection Hgroup as -> ->. reflexivity.
  - apply evaluateGroup_passes in Hg.
    destruct (evaluateGroup p g obj) as [[o err] t]. simpl in Hg.
    injection Hg as -> ->. simpl.
    destruct (evaluateRules p (before ++ group :: after) obj) as [r t']. exact IH.
Qed.

(** The first record on which the rule set raises an error ends the call. *)
Lemma ApplySubset_abort p rules l cells objsBefore obj objsAfter offset length h e :
  0 <= offset → 1 <= length → checkRulesCount p rules = None →
  h !! l = Some (VSlice cells) →
  sliceElems cells = objsBefore ++ obj :: objsAfter →
  Forall (fun o => raises p rules o = None) objsBefore →
  raises p rules obj = Some e →
  ∃ h',
    ApplySubset p rules (VPtr (Some l)) offset length h
    = (Returns (0, 0, Some e), h',
       matcherCalls (evaluateRules p rules) (objsBefore ++ [obj])).
Proof.
  intros Hoff Hlen Hcount Hl Hels Hbefore Hobj.
  rewrite (ApplySubset_valid p rules l cells offset length h) by assumption.
  unfold filterSliceValue.
  destruct (filterLoop_error (evaluateRules p rules) length objsBefore
              (Datatypes.length (sliceElems cells)) 0
              {| elems := sliceElems cells; skip := offset; n := 0; m := 0 |}
              obj objsAfter e) as (st' & ->); simpl; auto with lia.
  eexists. reflexivity.
Qed.

(** C7.  When the field accessor reports that the field of a rule is not
    found on a record, the rule evaluates to false without error; any
    other error of the accessor is the result of the rule, of the rule
    set once the evaluation reaches the rule, and of [ApplySubset] once
    the pass reaches the record, with counts 0 and 0, the records after
    it not being evaluated. *)
Theorem field_not_found_is_soft p rule obj v e :
  GetFieldValue (fields p) obj (Field rule) = (v, Some e) →
  (errors_Is (Some e) errFieldNotFound = true →
     evaluateRule p rule obj = ((false, None), [(rule, obj)])) ∧
  (errors_Is (Some e) errFieldNotFound = false →
     fst (evaluateRule p rule obj) = (false, Some e) ∧
     (∀ before pre post after,
        Forall (groupPasses p obj) before →
        Forall (fun x => fst (evaluateRule p x obj) = (false, None)) pre →
        fst (evaluateRules p (before ++ (pre ++ rule :: post) :: after) obj)
        = (false, Some e)) ∧
     (∀ rules l cells objsBefore objsAfter offset length h,
        0 <= offset → 1 <= length → checkRulesCount p rules = None →
        h !! l = Some (VSlice cells) →
        sliceElems cells = objsBefore ++ obj :: objsAfter →
        Forall (fun o => raises p rules o = None) objsBefore →
        raises p rules obj = Some e →
        ∃ h',
          ApplySubset p rules (VPtr (Some l)) offset length h
          = (Returns (0, 0, Some e), h',
             matcherCalls (evaluateRules p rules) (objsBefore ++ [obj])))).
Proof.
  intros Hget. split; intros His.
  - unfold evaluateRule. rewrite Hget, His. reflexivity.
  - assert (Hrule : fst (evaluateRule p rule obj) = (false, Some e)).
    { unfold evaluateRule. rewrite Hget, His. reflexivity. }
    split; [exact Hrule|]. split.
    + intros before pre post after Hbefore Hpre.
      apply evaluateRules_error; [exact Hbefore|].
      apply evaluateGroup_error; assumption.
    + intros rules l cells objsBefore objsAfter offset length h.
      apply ApplySubset_abort.
Qed.

(** *** The two-level logic *)

(** C2.  On a record, for rules that evaluate without error, the rule set
    yields the AND over its groups of the OR over each group's rules; so
    [[a],[b,c],[d]] yields a AND (b OR c) AND d; a rule set without
    groups yields true and evaluates nothing; in general a record passes
    exactly when every group has a matching rule reached through clean
    non-matches; a group stops at its first matching rule (the later
    rules of the group are not evaluated), and the first group without a
    match yields false at once (the later groups are not evaluated). *)
Theorem evaluateRules_and_of_ors p obj :
  (∀ rules,
     Forall (Forall (clean p obj)) rules →
     fst (evaluateRules p rules obj) = (andOfOrs p rules obj, None)) ∧
  (∀ a b c d,
     Forall (clean p obj) [a; b; c; d] →
     fst (evaluateRules p [[a]; [b; c]; [d]] obj)
     = (verdict p obj a && (verdict p obj b || verdict p obj c) && verdict p obj d,
        None)) ∧
  evaluateRules p [] obj = ((true, None), []) ∧
  (∀ rules,
     fst (evaluateRules p rules obj) = (true, None)
     ↔ Forall (groupPasses p obj) rules) ∧
  (∀ pre rule post,
     Forall (fun x => fst (evaluateRule p x obj) = (false, None)) pre →
     fst (evaluateRule p rule obj) = (true, None) →
     evaluateGroup p (pre ++ rule :: post) obj
     = ((true, None), callsOf obj (pre ++ [rule]))) ∧
  (∀ before group after,
     Forall (fun g => fst (evaluateGroup p g obj) = (true, None)) before →
     fst (evaluateGroup p group obj) = (false, None) →
     evaluateRules p (before ++ group :: after) obj
     = ((false, None),
        concat (map (fun g => snd (evaluateGroup p g obj)) (before ++ [group])))).
Proof.
  split; [intros rules; apply evaluateRules_clean|].
  split.
  { intros a b c d Hclean.
    rewrite evaluateRules_clean.
    - unfold andOfOrs. simpl. rewrite !orb_false_r, andb_true_r, andb_assoc.
      reflexivity.
    - apply Forall_cons in Hclean as [Ha Hclean].
      apply Forall_cons in Hclean as [Hb Hclean].
      apply Forall_cons in Hclean as [Hc Hclean].
      apply Forall_cons in Hclean as [Hd _].
      repeat constructor; assumption. }
  split; [reflexivity|].
  split; [intros rules; apply evaluateRules_passes|].
  split; [intros pre rule post; apply evaluateGroup_first_match|].
  intros before group after. apply evaluateRules_first_failure.
Qed.

(** *** Rejected calls *)

Lemma checkRulesCount_total (rules : list (list Rule)) (acc : Z) :
  fold_left (fun count group => count + Z.of_nat (Datatypes.length group)) rules acc
  = acc + Z.of_nat (Datatypes.length (concat rules)).
Proof.
  revert acc. induction rules as [|g rules IH]; intros acc; simpl; [lia|].
  rewrite IH, length_app. lia.
Qed.

Lemma checkRulesCount_spec p rules :
  checkRulesCount p rules = None
  ↔ Z.of_nat (Datatypes.length (concat rules)) <= maxRules p.
Proof.
  unfold checkRulesCount. rewrite checkRulesCount_total, Z.add_0_l.
  destruct (Z.ltb_spec (maxRules p) (Z.of_nat (Datatypes.length (concat rules))));
    split; intros; (discriminate || lia || reflexivity).
Qed.

(** A call with a negative offset, a length below 1, too many rules, or a
    target that is not nil and not a pointer to a slice returns zero
    counts and an error, evaluates no rule and leaves the store alone. *)
Lemma ApplySubset_rejects p rules slicePtr offset length h :
  slicePtr ≠ VNil →
  offset < 0 ∨ length < 1
  ∨ maxRules p < Z.of_nat (Datatypes.length (concat rules))
  ∨ pointsToSlice h slicePtr = false →
  ∃ e, ApplySubset p rules slicePtr offset length h = (Returns (0, 0, Some e), h, []).
Proof.
  intros Hnil Hbad. unfold ApplySubset.
  destruct (Z.ltb_spec offset 0); [eauto|].
  destruct (Z.ltb_spec length 1); [eauto|].
  destruct (checkRulesCount p rules) as [e|] eqn:Hcount; [eauto|].
  apply checkRulesCount_spec in Hcount.
  destruct Hbad as [?|[?|[?|Hptr]]]; try lia.
  destruct slicePtr as [| | | | | | | | | | |[l|]| |]; try (simpl; eauto; fail).
  - contradiction.
  - simpl in *. destruct (h !! l) as [[]|]; simpl; eauto. discriminate.
Qed.

(** With valid arguments and records on which the rule set raises no
    error, the call succeeds. *)
Lemma ApplySubset_succeeds p rules l cells offset length h :
  0 <= offset → 1 <= length → checkRulesCount p rules = None →
  h !! l = Some (VSlice cells) →
  Forall (fun obj => raises p rules obj = None) (sliceElems cells) →
  let matching := List.filter (passes p rules) (sliceElems cells) in
  let retained := page offset length matching in
  ApplySubset p rules (VPtr (Some l)) offset length h
  = (Returns (Z.of_nat (Datatypes.length retained),
              Z.of_nat (Datatypes.length matching), None),
     <[l := reslice cells retained
              (drop (Datatypes.length retained) (sliceElems cells)
               ++ sliceSpare cells)]> h,
     matcherCalls (evaluateRules p rules) (sliceElems cells)).
Proof.
  intros Hoff Hlen Hcount Hl Hclean.
  rewrite (ApplySubset_valid p rules l cells offset length h) by assumption.
  apply filterSliceValue_clean. exact Hclean.
Qed.

(** The only call that panics is the one on the nil interface. *)
Lemma ApplySubset_panics_only_nil p rules slicePtr offset length h msg h' t :
  ApplySubset p rules slicePtr offset length h = (Panics msg, h', t) →
  slicePtr = VNil.
Proof.
  intros Heq.
  assert (slicePtr = VNil ∨ slicePtr ≠ VNil) as [|Hnil]
    by (destruct slicePtr; (left; reflexivity) || (right; discriminate));
    [assumption|exfalso].
  destruct (Z.ltb_spec offset 0) as [Hoff|Hoff];
    [destruct (ApplySubset_rejects p rules slicePtr offset length h Hnil) as [e He];
     [auto | congruence]|].
  destruct (Z.ltb_spec length 1) as [Hlen|Hlen];
    [destruct (ApplySubset_rejects p rules slicePtr offset length h Hnil) as [e He];
     [auto | congruence]|].
  destruct (checkRulesCount p rules) as [err|] eqn:Hcount.
  { unfold ApplySubset in Heq.
    destruct (offset <? 0); [discriminate|].
    destruct (length <? 1); [discriminate|].
    rewrite Hcount in Heq. discriminate. }
  destruct (pointsToSlice h slicePtr) eqn:Hptr.
  - destruct (pointsToSlice_inv _ _ Hptr) as (l & cells & -> & Hl).
    destruct (first_error (evaluateRules p rules) (sliceElems cells))
      as [Hclean | (pre & x & post & e & Hels & Hpre & Hx)].
    + rewrite (ApplySubset_succeeds p rules l cells offset length h) in Heq
        by assumption.
      discriminate.
    + destruct (ApplySubset_abort p rules l cells pre x post offset length h e)
        as [h'' Habort]; try assumption.
      congruence.
  - destruct (ApplySubset_rejects p rules slicePtr offset length h Hnil) as [e He];
      [auto | congruence].
Qed.

(** C5, at a nil target.  With valid offset, length and rules, the call
    with the nil interface as target does not return an error: printing
    the type of the zero Value for the error message panics. *)
Theorem ApplySubset_nil_target_panics (f : fieldGetter) (h : heap) :
  ApplySubset {| fields := f; maxRules := defaultMaxRules;
                 maxResults := defaultMaxResults;
                 urlQueryFilterKey := DefaultURLQueryFilterKey |}
    [] VNil 0 1 h
  = (Panics "reflect: call of reflect.Value.Type on zero Value", h, []).
Proof. reflexivity. Qed.

(** *** The URL query *)

(** C10.  When the query holds values for the filter key, the result of
    [ParseURLQuery] is decided by the first of them: it is that of the
    query with the other values removed, and a nil rule set without
    error when the first value is the empty string. *)
Theorem ParseURLQuery_first_value p q first others :
  q !! urlQueryFilterKey p = Some (first :: others) →
  ParseURLQuery p q = ParseURLQuery p (<[urlQueryFilterKey p := [first]]> q) ∧
  ParseURLQuery p q
  = (if String.eqb first "" then (None, None) else ParseJSON first) ∧
  (first = EmptyString → ParseURLQuery p q = (None, None)).
Proof.
  intros Hq. unfold ParseURLQuery, Values_Get.
  rewrite Hq, lookup_insert_eq. split; [reflexivity|]. split; [reflexivity|].
  intros ->. reflexivity.
Qed.

End Properties.

(** ** The properties at concrete calls *)

#[local] Existing Instance structFields.
#[local] Existing Instance operatorRules.
#[local] Existing Instance noJSON.

Lemma ApplySubset_single_pass_witness :
  ∃ l cells,
    VPtr (Some 1%positive) = VPtr (Some l) ∧ demoHeap !! l = Some (VSlice cells) ∧
    let matching := List.filter (passes defaultProcessor [[rule_n_gte 4]])
                      (sliceElems cells) in
    let retained := page 1 1 matching in
    [(rule_n_gte 4, rec_n 1); (rule_n_gte 4, rec_n 4);
     (rule_n_gte 4, rec_n 5); (rule_n_gte 4, rec_n 9)]
    = matcherCalls (evaluateRules defaultProcessor [[rule_n_gte 4]]) (sliceElems cells) ∧
    3 = Z.of_nat (Datatypes.length matching) ∧
    1 = Z.of_nat (Datatypes.length retained) ∧
    <[1%positive := VSlice (Some ([rec_n 5],
                                  [rec_n 4; rec_n 5; rec_n 9; rec_n 77]))]> demoHeap
    = <[l := reslice cells retained
              (drop (Datatypes.length retained) (sliceElems cells)
               ++ sliceSpare cells)]> demoHeap ∧
    (∃ v', <[1%positive := VSlice (Some ([rec_n 5],
                                   [rec_n 4; rec_n 5; rec_n 9; rec_n 77]))]> demoHeap
           !! l = Some v' ∧ valueLen v' = Some 1) ∧
    retained `sublist_of` sliceElems cells.
Proof.
  apply (ApplySubset_single_pass defaultProcessor [[rule_n_gte 4]]
           (VPtr (Some 1%positive)) 1 1 demoHeap).
  vm_compute. reflexivity.
Defined.

Lemma ApplySubset_counts_witness : 1 <= 1 ∧ 1 <= 3 ∧ 3 <= 4.
Proof.
  apply (ApplySubset_counts defaultProcessor [[rule_n_gte 4]] 1%positive
           (VSlice (Some ([rec_n 1; rec_n 4; rec_n 5; rec_n 9], [rec_n 77])))
           4 1 1 demoHeap 1 3
           (<[1%positive := VSlice (Some ([rec_n 5],
                [rec_n 4; rec_n 5; rec_n 9; rec_n 77]))]> demoHeap)
           [(rule_n_gte 4, rec_n 1); (rule_n_gte 4, rec_n 4);
            (rule_n_gte 4, rec_n 5); (rule_n_gte 4, rec_n 9)]).
  - vm_compute. reflexivity.
  - reflexivity.
  - reflexivity.
Defined.

Lemma ApplySubset_idempotent_witness :
  ∃ t2,
    ApplySubset defaultProcessor [[rule_n_gte 4]] (VPtr (Some 1%positive)) 0 2
      (<[1%positive := VSlice (Some ([rec_n 4; rec_n 5],
           [rec_n 5; rec_n 9; rec_n 77]))]> demoHeap)
    = (Returns (2, 2, None),
       <[1%positive := VSlice (Some ([rec_n 4; rec_n 5],
           [rec_n 5; rec_n 9; rec_n 77]))]> demoHeap,
       t2).
Proof.
  apply (ApplySubset_idempotent defaultProcessor [[rule_n_gte 4]]
           (VPtr (Some 1%positive)) 2 2 demoHeap 2 3 _
           [(rule_n_gte 4, rec_n 1); (rule_n_gte 4, rec_n 4);
            (rule_n_gte 4, rec_n 5); (rule_n_gte 4, rec_n 9)]).
  - vm_compute. reflexivity.
  - lia.
Defined.

Lemma empty_group_matches_nothing_witness :
  fst (fst (evaluateRules defaultProcessor [[rule_n_gte 4]; []] (rec_n 9))) = false ∧
  (0 = 0 ∧ 0 = 0 ∧
   ∃ l cells,
     VPtr (Some 1%positive) = VPtr (Some l) ∧
     demoHeap !! l = Some (VSlice cells) ∧
     <[1%positive := VSlice (Some ([],
         [rec_n 1; rec_n 4; rec_n 5; rec_n 9; rec_n 77]))]> demoHeap
     = <[l := reslice cells [] (sliceElems cells ++ sliceSpare cells)]> demoHeap ∧
     valueLen (reslice cells [] (sliceElems cells ++ sliceSpare cells)) = Some 0).
Proof.
  assert (Hin : [] ∈ [[rule_n_gte 4]; []]).
  { apply elem_of_cons. right. apply elem_of_cons. left. reflexivity. }
  destruct (empty_group_matches_nothing defaultProcessor [[rule_n_gte 4]; []] Hin)
    as [Hfalse Hcall].
  split; [apply Hfalse|].
  apply (Hcall (VPtr (Some 1%positive)) 0 10 demoHeap 0 0 _
           [(rule_n_gte 4, rec_n 1); (rule_n_gte 4, rec_n 4);
            (rule_n_gte 4, rec_n 5); (rule_n_gte 4, rec_n 9)]).
  vm_compute. reflexivity.
Defined.

Lemma field_not_found_is_soft_witness :
  evaluateRule defaultProcessor rule_missing (rec_n 1)
  = ((false, None), [(rule_missing, rec_n 1)]) ∧
  fst (evaluateRule defaultProcessor (rule_n_gte 4) (VInt 7))
  = (false, Some (errorString "the record is not a struct")) ∧
  ∃ h',
    ApplySubset defaultProcessor [[rule_n_gte 4]] (VPtr (Some 1%positive)) 0 10 mixedHeap
    = (Returns (0, 0, Some (errorString "the record is not a struct")), h',
       matcherCalls (evaluateRules defaultProcessor [[rule_n_gte 4]])
         ([rec_n 1; rec_n 4] ++ [VInt 7])).
Proof.
  split.
  - apply (field_not_found_is_soft defaultProcessor rule_missing (rec_n 1) VNil
             (wrapError "field lookup" errFieldNotFound)); reflexivity.
  - assert (Hget : GetFieldValue (fields defaultProcessor) (VInt 7)
                     (Field (rule_n_gte 4))
                   = (VNil, Some (errorString "the record is not a struct")))
      by reflexivity.
    destruct (field_not_found_is_soft defaultProcessor (rule_n_gte 4) (VInt 7) VNil
                (errorString "the record is not a struct") Hget)
      as [_ Hhard].
    destruct Hhard as (Hrule & _ & Hcall); [reflexivity|].
    split; [exact Hrule|].
    apply (Hcall [[rule_n_gte 4]] 1%positive
             (Some ([rec_n 1; rec_n 4; VInt 7; rec_n 9], []))
             [rec_n 1; rec_n 4] [rec_n 9] 0 10 mixedHeap);
      try reflexivity; try lia.
    repeat constructor.
Defined.

Lemma evaluateRules_and_of_ors_witness :
  fst (evaluateRules defaultProcessor
         [[rule_n_gte 4]; [rule_n_gte 9; rule_n_gte 5]; [rule_n_gte 1]] (rec_n 5))
  = (true && (false || true) && true, None) ∧
  evaluateGroup defaultProcessor ([rule_n_gte 9] ++ rule_n_gte 5 :: [rule_n_gte 1])
    (rec_n 5)
  = ((true, None), callsOf (rec_n 5) ([rule_n_gte 9] ++ [rule_n_gte 5])) ∧
  evaluateRules defaultProcessor
    ([[rule_n_gte 4]] ++ [rule_n_gte 9] :: [[rule_n_gte 1]]) (rec_n 5)
  = ((false, None),
     concat (map (fun g => snd (evaluateGroup defaultProcessor g (rec_n 5)))
               ([[rule_n_gte 4]] ++ [[rule_n_gte 9]]))).
Proof.
  destruct (evaluateRules_and_of_ors defaultProcessor (rec_n 5))
    as (_ & Hexample & _ & _ & Hgroup & Hfail).
  split; [|split].
  - apply (Hexample (rule_n_gte 4) (rule_n_gte 9) (rule_n_gte 5) (rule_n_gte 1)).
    repeat constructor.
  - apply Hgroup; [repeat constructor | reflexivity].
  - apply Hfail; [repeat constructor | reflexivity].
Defined.

Lemma ParseURLQuery_first_value_witness :
  ParseURLQuery defaultProcessor {[ "filter"%string := [""%string; "[]"%string] ]}
  = (None, None).
Proof.
  assert (Hq : ({[ "filter"%string := [""%string; "[]"%string] ]}
                  : gmap string (list string))
               !! urlQueryFilterKey defaultProcessor
               = Some [""%string; "[]"%string])
    by (vm_compute; reflexivity).
  destruct (ParseURLQuery_first_value defaultProcessor _ _ _ Hq) as (_ & _ & Hempty).
  apply Hempty. reflexivity.
Defined.

(** The records [{1}, {4}, {5}, {9}] under [n >= 20]: nothing is
    retained, nothing matches, and there is no error. *)
Example ApplySubset_no_match :
  ApplySubset defaultProcessor [[rule_n_gte 20]] (VPtr (Some 1%positive)) 0 10 demoHeap
  = (Returns (0, 0, None),
     <[1%positive := VSlice (Some ([],
         [rec_n 1; rec_n 4; rec_n 5; rec_n 9; rec_n 77]))]> demoHeap,
     [(rule_n_gte 20, rec_n 1); (rule_n_gte 20, rec_n 4);
      (rule_n_gte 20, rec_n 5); (rule_n_gte 20, rec_n 9)]).
Proof. vm_compute. reflexivity. Qed.

(** Four rules against the default maximum of three: a count error, no
    evaluation, the store as it was. *)
Example ApplySubset_too_many_rules :
  ApplySubset defaultProcessor
    [[rule_n_gte 1; rule_n_gte 2]; [rule_n_gte 3; rule_n_gte 4]]
    (VPtr (Some 1%positive)) 0 10 demoHeap
  = (Returns (0, 0, Some (errorString "too many rules")), demoHeap, []).
Proof. reflexivity. Qed.

(** ** Further properties of the processor *)

Section Further.
Context {fieldGetter : Type} `{!FieldGetter fieldGetter}.
Context `{!RuleMethods} `{!JSONDecoder}.
Implicit Type p : Processor fieldGetter.

(** *** Pages *)

Lemma page_length_min offset length (l : list value) :
  0 <= offset → 0 <= length →
  Z.of_nat (Datatypes.length (page offset length l))
  = Z.min length (Z.max 0 (Z.of_nat (Datatypes.length l) - offset)).
Proof.
  intros Ho Hl. unfold page. rewrite length_take, length_drop. lia.
Qed.

Lemma page_app offset length1 length2 (l : list value) :
  0 <= offset → 0 <= length1 → 0 <= length2 →
  page offset length1 l ++ page (offset + length1) length2 l
  = page offset (length1 + length2) l.
Proof.
  intros Ho H1 H2. unfold page.
  rewrite !Z2Nat.inj_add by lia.
  rewrite <- drop_drop. apply take_take_drop.
Qed.

Lemma page_all offset length (l : list value) :
  offset <= 0 → Z.of_nat (Datatypes.length l) <= length →
  page offset length l = l.
Proof.
  intros Ho Hl. unfold page.
  replace (Z.to_nat offset) with 0%nat by lia.
  rewrite drop_0. apply take_ge. lia.
Qed.

(** The slice the target shows after a successful call. *)
Lemma targetElems_reslice (h : heap) l cells (retained spare : list value) :
  (cells = None → retained = []) →
  targetElems (<[l := reslice cells retained spare]> h) (VPtr (Some l)) = retained.
Proof.
  intros Hnil. unfold targetElems. rewrite lookup_insert_eq.
  destruct cells as [[els sp]|]; simpl; [reflexivity|].
  symmetry. apply Hnil. reflexivity.
Qed.

Lemma ApplySubset_success_target p rules slicePtr offset length h nn mm h' t :
  ApplySubset p rules slicePtr offset length h = (Returns (nn, mm, None), h', t) →
  0 <= offset ∧ 1 <= length ∧
  mm = Z.of_nat (Datatypes.length
                   (List.filter (passes p rules) (targetElems h slicePtr))) ∧
  targetElems h' slicePtr
  = page offset length (List.filter (passes p rules) (targetElems h slicePtr)).
Proof.
  intros Heq.
  destruct (ApplySubset_success _ _ _ _ _ _ _ _ _ _ Heq)
    as (l & cells & -> & Hl & Hoff & Hlen & _ & _ & _ & Hm & Hh & _).
  cbv zeta in *. unfold targetElems at 1 3. rewrite Hl.
  repeat (split; [assumption|]).
  rewrite Hh. apply targetElems_reslice. intros ->. apply page_nil.
Qed.

(** X1.  The retained count of a successful call is
    [min(length, max(0, m - offset))]: what is left of the matches after
    the offset, capped by the length. *)
Theorem ApplySubset_retained_count p rules slicePtr offset length h nn mm h' t :
  ApplySubset p rules slicePtr offset length h = (Returns (nn, mm, None), h', t) →
  nn = Z.min length (Z.max 0 (mm - offset)).
Proof.
  intros Heq.
  destruct (ApplySubset_success _ _ _ _ _ _ _ _ _ _ Heq)
    as (l & cells & _ & _ & Hoff & Hlen & _ & _ & -> & -> & _ & _).
  apply page_length_min; lia.
Qed.

(** X2.  The total number of matches a successful call reports does not
    depend on the offset and the length of the call. *)
Theorem ApplySubset_total_independent p rules slicePtr h
    offset1 length1 nn1 mm1 h1 t1 offset2 length2 nn2 mm2 h2 t2 :
  ApplySubset p rules slicePtr offset1 length1 h = (Returns (nn1, mm1, None), h1, t1) →
  ApplySubset p rules slicePtr offset2 length2 h = (Returns (nn2, mm2, None), h2, t2) →
  mm1 = mm2.
Proof.
  intros H1 H2.
  destruct (ApplySubset_success_target _ _ _ _ _ _ _ _ _ _ H1) as (_ & _ & -> & _).
  destruct (ApplySubset_success_target _ _ _ _ _ _ _ _ _ _ H2) as (_ & _ & -> & _).
  reflexivity.
Qed.

(** X3.  Consecutive pages compose: on the same store, the slice left by
    the call at [(offset, length1 + length2)] is the slice left by the
    call at [(offset, length1)] followed by the slice left by the call at
    [(offset + length1, length2)]. *)
Theorem ApplySubset_pages_compose p rules slicePtr h offset length1 length2
    na ma ha ta nb mb hb tb nc mc hc tc :
  ApplySubset p rules slicePtr offset length1 h = (Returns (na, ma, None), ha, ta) →
  ApplySubset p rules slicePtr (offset + length1) length2 h
    = (Returns (nb, mb, None), hb, tb) →
  ApplySubset p rules slicePtr offset (length1 + length2) h
    = (Returns (nc, mc, None), hc, tc) →
  targetElems hc slicePtr = targetElems ha slicePtr ++ targetElems hb slicePtr.
Proof.
  intros Ha Hb Hc.
  destruct (ApplySubset_success_target _ _ _ _ _ _ _ _ _ _ Ha) as (Ho & H1 & _ & ->).
  destruct (ApplySubset_success_target _ _ _ _ _ _ _ _ _ _ Hb) as (_ & H2 & _ & ->).
  destruct (ApplySubset_success_target _ _ _ _ _ _ _ _ _ _ Hc) as (_ & _ & _ & ->).
  symmetry. apply page_app; lia.
Qed.

(** *** Degenerate calls *)

Lemma matcherCalls_no_rules p (objs : list value) :
  matcherCalls (evaluateRules p []) objs = [].
Proof. induction objs as [|x xs IH]; [reflexivity | exact IH]. Qed.

Lemma filter_no_rules p (objs : list value) :
  List.filter (passes p []) objs = objs.
Proof. apply filter_all. apply Forall_forall. reflexivity. Qed.

(** X4.  With a rule set without groups the call only paginates: every
    record counts as a match, the slice becomes its page
    [take length (drop offset elements)], and no rule is evaluated. *)
Theorem ApplySubset_no_rules p l cells offset length h :
  0 <= offset → 1 <= length → 0 <= maxRules p →
  h !! l = Some (VSlice cells) →
  ∃ h',
    ApplySubset p [] (VPtr (Some l)) offset length h
    = (Returns (Z.of_nat (Datatypes.length (page offset length (sliceElems cells))),
                Z.of_nat (Datatypes.length (sliceElems cells)), None),
       h', []) ∧
    targetElems h' (VPtr (Some l)) = page offset length (sliceElems cells).
Proof.
  intros Hoff Hlen Hmax Hl.
  assert (Hcount : checkRulesCount p [] = None).
  { apply checkRulesCount_spec. simpl. lia. }
  eexists. split.
  - rewrite (ApplySubset_succeeds p [] l cells offset length h) by
      (try assumption; apply Forall_forall; reflexivity).
    cbv zeta. rewrite filter_no_rules, matcherCalls_no_rules. reflexivity.
  - apply targetElems_reslice. intros ->. apply page_nil.
Qed.

(** X5.  On a pointer to an empty or nil slice a call with valid
    arguments returns [(0, 0, nil)], evaluates nothing and leaves the
    store as it is, whatever the rules. *)
Theorem ApplySubset_empty_slice p rules l cells offset length h :
  0 <= offset → 1 <= length → checkRulesCount p rules = None →
  h !! l = Some (VSlice cells) → sliceElems cells = [] →
  ApplySubset p rules (VPtr (Some l)) offset length h = (Returns (0, 0, None), h, []).
Proof.
  intros Hoff Hlen Hcount Hl Hempty.
  rewrite (ApplySubset_succeeds p rules l cells offset length h)
    by (try assumption; rewrite Hempty; constructor).
  cbv zeta. rewrite Hempty. simpl. rewrite page_nil. simpl.
  assert (Hsame : reslice cells [] (sliceSpare cells) = VSlice cells).
  { clear Hl. destruct cells as [[els sp]|]; [|reflexivity].
    unfold sliceElems in Hempty. simpl in Hempty. subst els. reflexivity. }
  rewrite Hsame, (insert_id h l (VSlice cells) Hl). reflexivity.
Qed.

(** *** Apply *)

(** X6.  When the slice holds no more elements than the configured
    maximum of results, a successful [Apply] retains all the matching
    records and nothing else, in their order: both counts are equal and
    the slice becomes the matching records. *)
Theorem Apply_retains_the_matches p rules slicePtr h nn mm h' t :
  Apply p rules slicePtr h = (Returns (nn, mm, None), h', t) →
  Z.of_nat (Datatypes.length (targetElems h slicePtr)) <= maxResults p →
  nn = mm ∧
  targetElems h' slicePtr = List.filter (passes p rules) (targetElems h slicePtr).
Proof.
  unfold Apply. intros Heq Hmax.
  destruct (ApplySubset_success_target _ _ _ _ _ _ _ _ _ _ Heq)
    as (_ & _ & Hm & Hels).
  pose proof (filter_length_le (passes p rules) (targetElems h slicePtr)) as Hle.
  assert (Hpage : page 0 (maxResults p)
                    (List.filter (passes p rules) (targetElems h slicePtr))
                  = List.filter (passes p rules) (targetElems h slicePtr))
    by (apply page_all; lia).
  rewrite Hpage in Hels. split; [|exact Hels].
  destruct (ApplySubset_success _ _ _ _ _ _ _ _ _ _ Heq)
    as (l & cells & -> & Hl & _ & _ & _ & _ & Hn & _ & _ & _).
  cbv zeta in Hn. unfold targetElems in Hpage, Hm. rewrite Hl in Hpage, Hm.
  rewrite Hpage in Hn. congruence.
Qed.

(** *** What a call leaves alone *)



(** X8.  A call whose target is not the nil interface and that has a
    negative offset, a length below 1, more rules in total than the
    configured maximum, or a target that is not a pointer to a slice,
    returns zero counts and an error, evaluates no rule and leaves the
    store as it is. *)
Theorem ApplySubset_rejected_untouched p rules slicePtr offset length h :
  slicePtr ≠ VNil →
  offset < 0 ∨ length < 1
  ∨ maxRules p < Z.of_nat (Datatypes.length (concat rules))
  ∨ pointsToSlice h slicePtr = false →
  ∃ e, ApplySubset p rules slicePtr offset length h = (Returns (0, 0, Some e), h, []).
Proof. apply ApplySubset_rejects. Qed.

(** X9.  A call on a target that is not the nil interface returns: the
    reads and writes of the loop stay within the slice, and so does the
    final length. *)
Theorem ApplySubset_returns p rules slicePtr offset length h :
  slicePtr ≠ VNil →
  ∃ nn mm err h' t,
    ApplySubset p rules slicePtr offset length h = (Returns (nn, mm, err), h', t).
Proof.
  intros Hnil.
  destruct (ApplySubset p rules slicePtr offset length h) as [[[[[nn mm] err]|msg] h'] t]
    eqn:Heq; [eauto 10|].
  exfalso. apply Hnil. eapply ApplySubset_panics_only_nil. exact Heq.
Qed.

(** *** The cost of a call *)

Lemma evaluateGroup_calls p group obj :
  ∃ k, snd (evaluateGroup p group obj) = callsOf obj (take k group).
Proof.
  induction group as [|rule rest [k IH]]; [exists 0%nat; reflexivity|].
  simpl. rewrite evaluateRule_split.
  destruct (snd (fst (evaluateRule p rule obj))) as [e|];
    [exists 1%nat; reflexivity|].
  destruct (verdict p obj rule); [exists 1%nat; reflexivity|].
  destruct (evaluateGroup p rest obj) as [r t']. simpl in IH. subst t'.
  exists (S k). reflexivity.
Qed.

Lemma evaluateGroup_calls_sublist p group obj :
  snd (evaluateGroup p group obj) `sublist_of` callsOf obj group.
Proof.
  destruct (evaluateGroup_calls p group obj) as [k ->].
  unfold callsOf. rewrite <- firstn_map. apply sublist_take.
Qed.

Lemma evaluateRules_calls_bound p rules obj :
  snd (evaluateRules p rules obj) `sublist_of` callsOf obj (concat rules) ∧
  (Datatypes.length (snd (evaluateRules p rules obj))
   <= Datatypes.length (concat rules))%nat.
Proof.
  assert (Hsub : snd (evaluateRules p rules obj)
                   `sublist_of` callsOf obj (concat rules)).
  { induction rules as [|group rest IH]; [reflexivity|].
    simpl. unfold callsOf. rewrite map_app. fold (callsOf obj group).
    fold (callsOf obj (concat rest)).
    pose proof (evaluateGroup_calls_sublist p group obj) as Hg.
    destruct (evaluateGroup p group obj) as [[o [e|]] t]; simpl in Hg |- *.
    - apply sublist_inserts_r. exact Hg.
    - destruct o; simpl.
      + destruct (evaluateRules p rest obj) as [r t']. simpl in IH |- *.
        apply sublist_app; assumption.
      + apply sublist_inserts_r. exact Hg. }
  split; [exact Hsub|].
  apply sublist_length in Hsub. unfold callsOf in Hsub.
  rewrite length_map in Hsub. exact Hsub.
Qed.

(** X10.  On a record the rule set evaluates its rules in their order and
    each at most once: the calls are a subsequence of the rules of all
    the groups, one after the other, which bounds their number by the
    total number of rules. *)
Theorem evaluateRules_calls_in_order p rules obj :
  snd (evaluateRules p rules obj) `sublist_of` callsOf obj (concat rules) ∧
  (Datatypes.length (snd (evaluateRules p rules obj))
   <= Datatypes.length (concat rules))%nat.
Proof. apply evaluateRules_calls_bound. Qed.

Lemma filterLoop_cost matcher length bound todo : ∀ i st,
  (∀ obj, (Datatypes.length (snd (matcher obj)) <= bound)%nat) →
  (Datatypes.length (snd (filterLoop matcher length todo i st)) <= todo * bound)%nat.
Proof.
  induction todo as [|todo IH]; intros i st Hbound; simpl; [lia|].
  destruct (elems st !! i) as [v|]; [|simpl; lia].
  pose proof (Hbound v) as Hv.
  destruct (matcher v) as [[matched [e|]] t]; simpl in Hv |- *; [lia|].
  assert (Hstep : ∀ st',
    (Datatypes.length
       (snd (let '(r, t') := filterLoop matcher length todo (S i) st' in (r, t ++ t')))
     <= bound + todo * bound)%nat).
  { intros st'. pose proof (IH (S i) st' Hbound) as Hrest.
    destruct (filterLoop matcher length todo (S i) st') as [r t'].
    simpl in Hrest |- *. rewrite length_app. lia. }
  destruct matched; simpl; [|apply Hstep].
  destruct (0 <? skip st); [apply Hstep|].
  destruct (Z.of_nat (n st) <? length); [|apply Hstep].
  destruct (elems st !! n st); [apply Hstep | simpl; lia].
Qed.

Lemma checkRulesCount_accepts_iff p rules :
  checkRulesCount p rules = None
  ↔ Z.of_nat (Datatypes.length (concat rules)) <= maxRules p.
Proof. apply checkRulesCount_spec. Qed.

(** X11.  Whatever its outcome, a call evaluates at most as many rules
    as the slice has elements times the rule set has rules, hence at
    most elements times the configured maximum. *)
Theorem ApplySubset_cost p rules slicePtr offset length h r h' t :
  ApplySubset p rules slicePtr offset length h = (r, h', t) →
  (Datatypes.length t
   <= Datatypes.length (targetElems h slicePtr) * Datatypes.length (concat rules))%nat ∧
  Z.of_nat (Datatypes.length t)
  <= Z.of_nat (Datatypes.length (targetElems h slicePtr)) * Z.max 0 (maxRules p).
Proof.
  intros Heq.
  assert (Hcases : t = [] ∨
    (checkRulesCount p rules = None ∧
     (Datatypes.length t
      <= Datatypes.length (targetElems h slicePtr)
         * Datatypes.length (concat rules))%nat)).
  { unfold ApplySubset in Heq.
    destruct (offset <? 0); [injection Heq as _ _ <-; auto|].
    destruct (length <? 1); [injection Heq as _ _ <-; auto|].
    destruct (checkRulesCount p rules) eqn:Hcount; [injection Heq as _ _ <-; auto|].
    destruct slicePtr as [| | | | | | | | | | |[l|]| |];
      try (cbn -[filterSliceValue] in Heq; injection Heq as _ _ <-; auto; fail).
    cbn -[filterSliceValue] in Heq |- *.
    destruct (h !! l) as [v|] eqn:Hl;
      [|cbn -[filterSliceValue] in Heq; injection Heq as _ _ <-; auto].
    destruct v; try (cbn -[filterSliceValue] in Heq; injection Heq as _ _ <-; auto; fail).
    cbn -[filterSliceValue] in Heq. right. split; [reflexivity|].
    unfold filterSliceValue in Heq.
    pose proof (filterLoop_cost (evaluateRules p rules) length
                  (Datatypes.length (concat rules))
                  (Datatypes.length (sliceElems cells)) 0
                  {| elems := sliceElems cells; skip := offset; n := 0; m := 0 |}
                  (fun obj => proj2 (evaluateRules_calls_bound p rules obj))) as Hcost.
    destruct (filterLoop _ _ _ _ _) as [[[st [e|]]|msg] t']; simpl in Hcost.
    - injection Heq as _ _ <-. exact Hcost.
    - destruct (_ <? _)%nat; injection Heq as _ _ <-; exact Hcost.
    - injection Heq as _ _ <-. exact Hcost. }
  destruct Hcases as [->|[Hcount Hlen]]; [simpl; split; [lia|nia]|].
  split; [exact Hlen|].
  apply checkRulesCount_accepts_iff in Hcount. nia.
Qed.

(** *** The slice an aborted call leaves *)

Section Abort.
Variable matcher : value -> (bool * option error) * trace.
Variable length : Z.

(** The loop up to the first record that raises an error is the
    iteration of [advance] over the records before it. *)
Lemma filterLoop_error_state pre : ∀ todo i st x post e,
  Datatypes.length (elems st) = (i + todo)%nat →
  (n st <= i)%nat →
  drop i (elems st) = pre ++ x :: post →
  Forall (fun obj => matcherError matcher obj = None) pre →
  matcherError matcher x = Some e →
  filterLoop matcher length todo i st
  = (Returns (fold_left (advance matcher length) pre st, Some e),
     matcherCalls matcher (pre ++ [x])).
Proof.
  induction pre as [|v pre IH]; intros todo i st x post e Hlen Hn Hdrop Hpre Hx.
  - assert (Hi : elems st !! i = Some x).
    { rewrite <- (Nat.add_0_r i), <- lookup_drop, Hdrop. reflexivity. }
    destruct todo as [|todo]; [apply lookup_lt_Some in Hi; lia|].
    simpl. rewrite Hi. unfold matcherError in Hx. unfold matcherCalls. simpl.
    destruct (matcher x) as [[matched err] t]. simpl in Hx. subst err.
    rewrite app_nil_r. reflexivity.
  - assert (Hi : elems st !! i = Some v).
    { rewrite <- (Nat.add_0_r i), <- lookup_drop, Hdrop. reflexivity. }
    destruct todo as [|todo]; [apply lookup_lt_Some in Hi; lia|].
    apply Forall_cons in Hpre as [Hv Hpre].
    destruct (advance_invariant matcher length i st v Hn) as (Hlen' & Hn' & Hdrop').
    rewrite (drop_S _ _ _ Hi) in Hdrop. injection Hdrop as Hdrop.
    rewrite (filterLoop_step matcher length todo i st v Hi Hn Hv).
    rewrite (IH todo (S i) (advance matcher length st v) x post e); auto.
    + lia.
    + rewrite Hdrop'. exact Hdrop.
Qed.

(** The state after the loop went over records [pre] found from index
    [i] on: the front of the slice holds what was retained before, then
    what the loop retains of [pre]; the rest is as it was. *)
Lemma advance_fold pre : ∀ i st rest,
  (n st <= i)%nat →
  drop i (elems st) = pre ++ rest →
  let st' := fold_left (advance matcher length) pre st in
  let new := select length (skip st) (n st) (List.filter (matches matcher) pre) in
  elems st' = take (n st) (elems st) ++ new
              ++ drop (n st + Datatypes.length new) (elems st) ∧
  n st' = (n st + Datatypes.length new)%nat.
Proof.
  induction pre as [|v pre IH]; intros i st rest Hn Hdrop; cbv zeta.
  - simpl. rewrite Nat.add_0_r, take_drop. auto.
  - assert (Hi : elems st !! i = Some v).
    { rewrite <- (Nat.add_0_r i), <- lookup_drop, Hdrop. reflexivity. }
    pose proof (lookup_lt_Some _ _ _ Hi) as Hlt.
    rewrite (drop_S _ _ _ Hi) in Hdrop. injection Hdrop as Hdrop.
    destruct (advance_invariant matcher length i st v Hn) as (_ & Hn' & Hdrop').
    rewrite <- Hdrop' in Hdrop.
    specialize (IH (S i) (advance matcher length st v) rest Hn' Hdrop).
    cbv zeta in IH. destruct IH as [He Hcount].
    cbn [fold_left List.filter]. rewrite He, Hcount. clear He Hcount.
    unfold advance. destruct (matches matcher v); [|auto].
    cbn [select].
    destruct (Z.ltb_spec 0 (skip st)); [simpl; auto|].
    destruct (Z.ltb_spec (Z.of_nat (n st)) length); [|simpl; auto].
    cbn [elems skip n Datatypes.length].
    rewrite drop_insert_lt by lia.
    erewrite take_S_r by (rewrite list_lookup_insert_eq by lia; reflexivity).
    rewrite take_insert_ge by lia.
    rewrite <- !app_assoc. cbn [app]. rewrite !Nat.add_succ_r. auto.
Qed.

End Abort.

(** X12.  When the rule set raises an error on a record, the call returns
    that error and leaves the slice partly compacted: its length is the
    original one, its front holds the page of the matches found among
    the records before the failing one, and every element from the end
    of that page on, in particular the failing record and those after
    it, is where it was. *)
Theorem ApplySubset_abort_state p rules l cells objsBefore obj objsAfter
    offset length h e :
  0 <= offset → 1 <= length → checkRulesCount p rules = None →
  h !! l = Some (VSlice cells) →
  sliceElems cells = objsBefore ++ obj :: objsAfter →
  Forall (fun o => raises p rules o = None) objsBefore →
  raises p rules obj = Some e →
  let kept := page offset length (List.filter (passes p rules) objsBefore) in
  ApplySubset p rules (VPtr (Some l)) offset length h
  = (Returns (0, 0, Some e),
     <[l := reslice cells
              (kept ++ drop (Datatypes.length kept) (sliceElems cells))
              (sliceSpare cells)]> h,
     matcherCalls (evaluateRules p rules) (objsBefore ++ [obj])) ∧
  Datatypes.length (kept ++ drop (Datatypes.length kept) (sliceElems cells))
  = Datatypes.length (sliceElems cells).
Proof.
  intros Hoff Hlen Hcount Hl Hels Hbefore Hobj kept.
  assert (Hkept : (Datatypes.length kept <= Datatypes.length objsBefore)%nat).
  { unfold kept.
    etransitivity; [apply sublist_length, page_sublist|apply filter_length_le]. }
  split.
  - rewrite (ApplySubset_valid p rules l cells offset length h) by assumption.
    unfold filterSliceValue.
    rewrite (filterLoop_error_state (evaluateRules p rules) length objsBefore
               (Datatypes.length (sliceElems cells)) 0
               {| elems := sliceElems cells; skip := offset; n := 0; m := 0 |}
               obj objsAfter e) by (simpl; auto with lia).
    destruct (advance_fold (evaluateRules p rules) length objsBefore 0
                {| elems := sliceElems cells; skip := offset; n := 0; m := 0 |}
                (obj :: objsAfter)) as [He _]; [simpl; lia | exact Hels |].
    cbn [elems skip n] in He. rewrite take_0, select_take_drop in He.
    cbn [app Nat.add] in He.
    change (matches (evaluateRules p rules)) with (passes p rules) in He.
    fold (page offset length (List.filter (passes p rules) objsBefore)) in He.
    fold kept in He. rewrite He. reflexivity.
  - rewrite length_app, length_drop, Hels, length_app in *. lia.
Qed.

(** *** The order of the rules *)

Lemma forallb_Permutation {A} (f : A → bool) (l l' : list A) :
  l ≡ₚ l' → forallb f l = forallb f l'.
Proof.
  induction 1 as [|x l l' _ IH|x y l|l l' l'' _ IH1 _ IH2]; simpl.
  - reflexivity.
  - rewrite IH. reflexivity.
  - destruct (f x), (f y); reflexivity.
  - congruence.
Qed.

Lemma existsb_Permutation {A} (f : A → bool) (l l' : list A) :
  l ≡ₚ l' → existsb f l = existsb f l'.
Proof.
  induction 1 as [|x l l' _ IH|x y l|l l' l'' _ IH1 _ IH2]; simpl.
  - reflexivity.
  - rewrite IH. reflexivity.
  - destruct (f x), (f y); reflexivity.
  - congruence.
Qed.

(** X13.  For rules that evaluate without error on a record, the verdict
    of the rule set does not depend on the order of the groups nor on
    the order of the rules within a group. *)
Theorem evaluateRules_order_irrelevant p obj rules :
  Forall (Forall (clean p obj)) rules →
  (∀ rules', rules ≡ₚ rules' →
     fst (evaluateRules p rules' obj) = fst (evaluateRules p rules obj)) ∧
  (∀ rules', Forall2 (≡ₚ) rules rules' →
     fst (evaluateRules p rules' obj) = fst (evaluateRules p rules obj)).
Proof.
  intros Hclean. split; intros rules' Hperm.
  - rewrite !evaluateRules_clean; [| exact Hclean | rewrite <- Hperm; exact Hclean].
    unfold andOfOrs. rewrite (forallb_Permutation _ _ _ Hperm). reflexivity.
  - assert (Hclean' : Forall (Forall (clean p obj)) rules').
    { clear -Hclean Hperm. induction Hperm as [|g g' gs gs' Hg _ IH];
        [constructor|].
      apply Forall_cons in Hclean as [Hc Hcs].
      constructor; [rewrite <- Hg; exact Hc | apply IH, Hcs]. }
    rewrite !evaluateRules_clean by assumption.
    unfold andOfOrs. clear Hclean Hclean'.
    induction Hperm as [|g g' gs gs' Hg _ IH]; [reflexivity|].
    simpl. rewrite (existsb_Permutation _ _ _ Hg). congruence.
Qed.

(** *** The rule count *)

(** X14.  [checkRulesCount] accepts a rule set exactly when the total
    number of its rules, over all the groups, does not exceed the
    configured maximum: how the rules are grouped or ordered does not
    matter, and empty groups are free. *)
Theorem checkRulesCount_counts_all_rules p rules :
  (checkRulesCount p rules = None
   ↔ Z.of_nat (Datatypes.length (concat rules)) <= maxRules p) ∧
  (∀ rules', concat rules ≡ₚ concat rules' →
     checkRulesCount p rules' = checkRulesCount p rules) ∧
  checkRulesCount p ([] :: rules) = checkRulesCount p rules.
Proof.
  split; [apply checkRulesCount_spec|]. split; [|reflexivity].
  intros rules' Hperm. unfold checkRulesCount.
  rewrite !checkRulesCount_total, (Permutation_length Hperm). reflexivity.
Qed.

(** *** Construction and parsing *)

Lemma applyOptions_result (opts : list Option) : ∀ p,
  (∃ p', applyOptions opts p = (Some p', None)) ∨
  (∃ e, applyOptions opts p = (None, Some e)).
Proof.
  induction opts as [|opt rest IH]; intros p; simpl; [eauto|].
  destruct (opt p) as [p' [e|]]; [eauto | apply IH].
Qed.

Lemma applyOptions_app (pre rest : list Option) : ∀ p p1,
  applyOptions pre p = (Some p1, None) →
  applyOptions (pre ++ rest) p = applyOptions rest p1.
Proof.
  induction pre as [|opt pre IH]; intros p p1; simpl.
  - intros [= ->]. reflexivity.
  - destruct (opt p) as [p' [e|]]; [discriminate | apply IH].
Qed.

(** X15.  [New] without options yields the defaults (at most 3 rules,
    [2^31 - 1] results, query key "filter"); [New] yields either a
    processor and no error or no processor and an error; the options
    apply in their order, each to the processor left by the ones before,
    and the first that fails ends the construction with its error, the
    later ones not being applied. *)
Theorem New_options :
  New [] = (Some {| fields := fieldGetter_zero; maxRules := 3;
                    maxResults := 2 ^ 31 - 1; urlQueryFilterKey := "filter" |},
            None) ∧
  (∀ opts, (∃ p, New opts = (Some p, None)) ∨ (∃ e, New opts = (None, Some e))) ∧
  (∀ pre opt rest p1 p' e,
     New pre = (Some p1, None) → opt p1 = (p', Some e) →
     New (pre ++ opt :: rest) = (None, Some e)) ∧
  (∀ pre opt rest p1 p',
     New pre = (Some p1, None) → opt p1 = (p', None) →
     New (pre ++ opt :: rest) = applyOptions rest p').
Proof.
  split; [reflexivity|]. split; [intros opts; apply applyOptions_result|].
  unfold New. split.
  - intros pre opt rest p1 p' e Hpre Hopt.
    rewrite (applyOptions_app pre (opt :: rest) _ p1 Hpre). simpl.
    rewrite Hopt. reflexivity.
  - intros pre opt rest p1 p' Hpre Hopt.
    rewrite (applyOptions_app pre (opt :: rest) _ p1 Hpre). simpl.
    rewrite Hopt. reflexivity.
Qed.

Lemma error_eqb_refl (e : error) : error_eqb e e = true.
Proof.
  induction e as [|msg|msg inner IH]; simpl;
    rewrite ?String.eqb_refl, ?IH; reflexivity.
Qed.

Lemma error_chain_has_refl (e : error) : error_chain_has e e = true.
Proof.
  pose proof (error_eqb_refl e) as Hrefl.
  destruct e; simpl in *; rewrite ?Hrefl; reflexivity.
Qed.

(** X16.  [ParseJSON] returns the decoded rule set when the decoder
    reports no error; when it reports one, [ParseJSON] returns the nil
    rule set and an error that wraps the decoder's, so that [errors.Is]
    finds it. *)
Theorem ParseJSON_wraps_decoder_error s r :
  (json_Unmarshal s = (r, None) → ParseJSON s = (r, None)) ∧
  (∀ e, json_Unmarshal s = (r, Some e) →
     ∃ err, ParseJSON s = (None, Some err) ∧
            errors_Is (Some err) e = true ∧ err ≠ e).
Proof.
  unfold ParseJSON. split.
  - intros ->. reflexivity.
  - intros e ->. eexists. split; [reflexivity|]. split.
    + unfold errors_Is. cbn [error_chain_has].
      rewrite error_chain_has_refl. apply orb_true_r.
    + intros Heq. apply (f_equal (fix size (x : error) : nat :=
        match x with wrapError _ i => S (size i) | _ => 0%nat end)) in Heq.
      simpl in Heq. lia.
Qed.

(** X17.  When the query has no value for the filter key, be the key
    missing or its list of values empty, [ParseURLQuery] returns the nil
    rule set and no error, whatever the decoder would do. *)
Theorem ParseURLQuery_missing_key p q :
  q !! urlQueryFilterKey p = None ∨ q !! urlQueryFilterKey p = Some [] →
  ParseURLQuery p q = (None, None).
Proof.
  intros [Hq|Hq]; unfold ParseURLQuery, Values_Get; rewrite Hq; reflexivity.
Qed.

End Further.

(** ** The further properties at concrete calls *)

Lemma ApplySubset_retained_count_witness : 1 = Z.min 1 (Z.max 0 (3 - 1)).
Proof.
  eapply (ApplySubset_retained_count defaultProcessor [[rule_n_gte 4]]
            (VPtr (Some 1%positive)) 1 1 demoHeap 1 3).
  vm_compute. reflexivity.
Defined.

Lemma ApplySubset_total_independent_witness : 3 = 3.
Proof.
  eapply (ApplySubset_total_independent defaultProcessor [[rule_n_gte 4]]
            (VPtr (Some 1%positive)) demoHeap 1 1 1 3 _ _ 0 10 3 3).
  - vm_compute. reflexivity.
  - vm_compute. reflexivity.
Defined.

Lemma ApplySubset_pages_compose_witness :
  [rec_n 4; rec_n 5; rec_n 9] = [rec_n 4] ++ [rec_n 5; rec_n 9].
Proof.
  change ([rec_n 4; rec_n 5; rec_n 9])
    with (targetElems
            (<[1%positive := VSlice (Some ([rec_n 4; rec_n 5; rec_n 9],
                 [rec_n 9; rec_n 77]))]> demoHeap) (VPtr (Some 1%positive))).
  change ([rec_n 4])
    with (targetElems
            (<[1%positive := VSlice (Some ([rec_n 4],
                 [rec_n 4; rec_n 5; rec_n 9; rec_n 77]))]> demoHeap)
            (VPtr (Some 1%positive))).
  change ([rec_n 5; rec_n 9])
    with (targetElems
            (<[1%positive := VSlice (Some ([rec_n 5; rec_n 9],
                 [rec_n 5; rec_n 9; rec_n 77]))]> demoHeap)
            (VPtr (Some 1%positive))).
  eapply (ApplySubset_pages_compose defaultProcessor [[rule_n_gte 4]]
            (VPtr (Some 1%positive)) demoHeap 0 1 2 1 3 _ _ 2 3 _ _ 3 3).
  - vm_compute. reflexivity.
  - vm_compute. reflexivity.
  - vm_compute. reflexivity.
Defined.

Lemma ApplySubset_no_rules_witness :
  ∃ h',
    ApplySubset defaultProcessor [] (VPtr (Some 1%positive)) 1 2 demoHeap
    = (Returns (2, 4, None), h', []) ∧
    targetElems h' (VPtr (Some 1%positive)) = [rec_n 4; rec_n 5].
Proof.
  apply (ApplySubset_no_rules defaultProcessor 1%positive
           (Some ([rec_n 1; rec_n 4; rec_n 5; rec_n 9], [rec_n 77])) 1 2 demoHeap);
    (lia || (vm_compute; (reflexivity || discriminate))).
Defined.

Lemma ApplySubset_empty_slice_witness :
  ApplySubset defaultProcessor [[rule_n_gte 4]] (VPtr (Some 1%positive)) 0 10 emptyHeap
  = (Returns (0, 0, None), emptyHeap, []).
Proof.
  apply (ApplySubset_empty_slice defaultProcessor [[rule_n_gte 4]] 1%positive
           (Some ([], [rec_n 77])));
    (lia || reflexivity).
Defined.

Lemma Apply_retains_the_matches_witness :
  3 = 3 ∧
  targetElems
    (<[1%positive := VSlice (Some ([rec_n 4; rec_n 5; rec_n 9],
         [rec_n 9; rec_n 77]))]> demoHeap) (VPtr (Some 1%positive))
  = List.filter (passes defaultProcessor [[rule_n_gte 4]])
      (targetElems demoHeap (VPtr (Some 1%positive))).
Proof.
  eapply (Apply_retains_the_matches defaultProcessor [[rule_n_gte 4]]
            (VPtr (Some 1%positive)) demoHeap 3 3).
  - vm_compute. reflexivity.
  - vm_compute. discriminate.
Defined.


Lemma ApplySubset_rejected_untouched_witness :
  ∃ e,
    ApplySubset defaultProcessor [[rule_n_gte 4]] (VInt 3) 0 10 demoHeap
    = (Returns (0, 0, Some e), demoHeap, []).
Proof.
  apply (ApplySubset_rejected_untouched defaultProcessor [[rule_n_gte 4]] (VInt 3)).
  - discriminate.
  - right. right. right. reflexivity.
Defined.

Lemma ApplySubset_returns_witness :
  ∃ nn mm err h' t,
    ApplySubset defaultProcessor [[rule_n_gte 4]] (VPtr None) 0 10 demoHeap
    = (Returns (nn, mm, err), h', t).
Proof.
  apply (ApplySubset_returns defaultProcessor [[rule_n_gte 4]] (VPtr None)).
  discriminate.
Defined.

Lemma ApplySubset_cost_witness :
  (4 <= 4 * 1)%nat ∧ 4 <= 4 * Z.max 0 3.
Proof.
  eapply (ApplySubset_cost defaultProcessor [[rule_n_gte 4]]
            (VPtr (Some 1%positive)) 1 1 demoHeap _ _
            [(rule_n_gte 4, rec_n 1); (rule_n_gte 4, rec_n 4);
             (rule_n_gte 4, rec_n 5); (rule_n_gte 4, rec_n 9)]).
  vm_compute. reflexivity.
Defined.

Lemma ApplySubset_abort_state_witness :
  ApplySubset defaultProcessor [[rule_n_gte 4]] (VPtr (Some 1%positive)) 0 10 mixedHeap
  = (Returns (0, 0, Some (errorString "the record is not a struct")),
     <[1%positive := VSlice (Some ([rec_n 4; rec_n 4; VInt 7; rec_n 9], []))]> mixedHeap,
     [(rule_n_gte 4, rec_n 1); (rule_n_gte 4, rec_n 4); (rule_n_gte 4, VInt 7)]) ∧
  Datatypes.length [rec_n 4; rec_n 4; VInt 7; rec_n 9] = 4%nat.
Proof.
  destruct (ApplySubset_abort_state defaultProcessor [[rule_n_gte 4]] 1%positive
              (Some ([rec_n 1; rec_n 4; VInt 7; rec_n 9], []))
              [rec_n 1; rec_n 4] (VInt 7) [rec_n 9] 0 10 mixedHeap
              (errorString "the record is not a struct"))
    as [Hcall _]; try lia; try reflexivity.
  - repeat constructor.
  - split; [|reflexivity].
    refine (eq_trans Hcall _). vm_compute. reflexivity.
Defined.

Lemma evaluateRules_order_irrelevant_witness :
  fst (evaluateRules defaultProcessor [[rule_n_gte 1; rule_n_gte 9]; [rule_n_gte 4]]
         (rec_n 5))
  = fst (evaluateRules defaultProcessor [[rule_n_gte 4]; [rule_n_gte 1; rule_n_gte 9]]
           (rec_n 5)) ∧
  fst (evaluateRules defaultProcessor [[rule_n_gte 4]; [rule_n_gte 9; rule_n_gte 1]]
         (rec_n 5))
  = fst (evaluateRules defaultProcessor [[rule_n_gte 4]; [rule_n_gte 1; rule_n_gte 9]]
           (rec_n 5)).
Proof.
  assert (Hclean : Forall (Forall (clean defaultProcessor (rec_n 5)))
                     [[rule_n_gte 4]; [rule_n_gte 1; rule_n_gte 9]])
    by (repeat constructor).
  destruct (evaluateRules_order_irrelevant defaultProcessor (rec_n 5) _ Hclean)
    as [Hgroups Hrules].
  split.
  - apply Hgroups. apply Permutation_swap.
  - apply Hrules. repeat constructor.
Defined.

Lemma checkRulesCount_counts_all_rules_witness :
  checkRulesCount defaultProcessor [[rule_n_gte 1]; []; [rule_n_gte 2; rule_n_gte 3]]
  = checkRulesCount defaultProcessor [[rule_n_gte 3; rule_n_gte 2; rule_n_gte 1]].
Proof.
  destruct (checkRulesCount_counts_all_rules defaultProcessor
              [[rule_n_gte 3; rule_n_gte 2; rule_n_gte 1]]) as (_ & Hperm & _).
  apply Hperm. simpl. symmetry.
  apply (Permutation_rev [rule_n_gte 1; rule_n_gte 2; rule_n_gte 3]).
Defined.

Lemma New_options_witness :
  New [withMaxRules 5; withMaxRules 0; withMaxRules 7]
  = (None, Some (errorString "maxRules must be at least 1")).
Proof.
  destruct (New_options (fieldGetter := unit)) as (_ & _ & Hfail & _).
  apply (Hfail [withMaxRules 5] (withMaxRules 0) [withMaxRules 7]
           {| fields := tt; maxRules := 5; maxResults := defaultMaxResults;
              urlQueryFilterKey := DefaultURLQueryFilterKey |}
           {| fields := tt; maxRules := 5; maxResults := defaultMaxResults;
              urlQueryFilterKey := DefaultURLQueryFilterKey |});
    reflexivity.
Defined.

Lemma ParseJSON_wraps_decoder_error_witness :
  ∃ err, ParseJSON "[[" = (None, Some err) ∧
         errors_Is (Some err) (errorString "invalid character") = true ∧
         err ≠ errorString "invalid character".
Proof.
  destruct (ParseJSON_wraps_decoder_error "[[" None) as [_ Hwrap].
  apply Hwrap. reflexivity.
Defined.

Lemma ParseURLQuery_missing_key_witness :
  ParseURLQuery defaultProcessor {[ "page"%string := ["2"%string] ]} = (None, None).
Proof.
  apply (ParseURLQuery_missing_key defaultProcessor). left. vm_compute. reflexivity.
Defined.

End Filter.

(** ** Properties of the evaluators *)

Module EvaluatorProperties.
Import Coercion.

(** *** HasSuffix *)

Lemma string_length_append (s t : string) :
  String.length (s ++ t) = (String.length s + String.length t)%nat.
Proof. induction s as [|c s IH]; simpl; [reflexivity|]. rewrite IH. reflexivity. Qed.

Lemma substring_whole (t : string) : substring 0 (String.length t) t = t.
Proof. induction t as [|c t IH]; simpl; [reflexivity|]. rewrite IH. reflexivity. Qed.

Lemma substring_after_append (s t : string) :
  substring (String.length s) (String.length t) (s ++ t) = t.
Proof. induction s as [|c s IH]; simpl; [apply substring_whole | exact IH]. Qed.

Lemma strings_HasSuffix_append (s suffix : string) :
  HasSuffix.strings_HasSuffix (s ++ suffix) suffix = true.
Proof.
  unfold HasSuffix.strings_HasSuffix. rewrite string_length_append.
  replace (String.length s + String.length suffix - String.length suffix)%nat
    with (String.length s) by lia.
  rewrite substring_after_append, String.eqb_refl, andb_true_r.
  apply Nat.leb_le. lia.
Qed.

(** C8.  [newHasSuffix] fails with an error on every reference that is
    not a string; it succeeds on a string [suffix], and a successful
    construction comes from a string [suffix] that the evaluator keeps:
    the evaluator then yields true on [s + suffix] for every string [s]
    and false on every input that is not a string. *)
Theorem HasSuffix_contract :
  (∀ r, (∀ s, r ≠ VString s) → ∃ e, HasSuffix.newHasSuffix r = (None, Some e)) ∧
  (∀ suffix,
     HasSuffix.newHasSuffix (VString suffix)
     = (Some {| HasSuffix.ref := suffix |}, None)) ∧
  (∀ r ev,
     HasSuffix.newHasSuffix r = (Some ev, None) →
     ∃ suffix,
       r = VString suffix ∧ HasSuffix.ref ev = suffix ∧
       (∀ s, Evaluate ev (VString (s ++ suffix)) = true) ∧
       (∀ x, (∀ s, x ≠ VString s) → Evaluate ev x = false)).
Proof.
  split; [|split].
  - intros r Hr. unfold HasSuffix.newHasSuffix.
    destruct r; simpl; eauto. exfalso. eapply Hr. reflexivity.
  - reflexivity.
  - intros r ev. unfold HasSuffix.newHasSuffix.
    destruct r; simpl; try discriminate. intros [= <-].
    eexists. split; [reflexivity|]. split; [reflexivity|]. split.
    + intros s'. apply strings_HasSuffix_append.
    + intros x Hx. unfold Evaluate, HasSuffix.evalHasSuffix_Evaluator.
      destruct x; simpl; try reflexivity. exfalso. eapply Hx. reflexivity.
Qed.

Lemma HasSuffix_contract_witness :
  ∃ suffix,
    VString "issimo" = VString suffix ∧
    HasSuffix.ref {| HasSuffix.ref := "issimo" |} = suffix ∧
    (∀ s, Evaluate {| HasSuffix.ref := "issimo" |} (VString (s ++ suffix)) = true) ∧
    (∀ x, (∀ s, x ≠ VString s) →
          Evaluate {| HasSuffix.ref := "issimo" |} x = false).
Proof.
  destruct HasSuffix_contract as (_ & _ & H).
  apply (H (VString "issimo")). reflexivity.
Defined.

(** The cases of [TestHasSuffix_Evaluate]. *)
Example TestHasSuffix_Evaluate :
  snd (HasSuffix.newHasSuffix (VInt 5)) ≠ None ∧
  Evaluate {| HasSuffix.ref := "start" |} VNil = false ∧
  Evaluate {| HasSuffix.ref := "start" |} (VInt 5) = false ∧
  Evaluate {| HasSuffix.ref := "issimo" |} (VString "buonissimo") = true ∧
  Evaluate {| HasSuffix.ref := "err" |} (VString "bravissimo") = false.
Proof. repeat split; (reflexivity || discriminate). Qed.

(** *** GTE on lengths *)

(** C4 as stated fails: built from 4.5, the evaluator yields true on the
    string "ciao" of length 4, and 4 >= 4.5 is false. *)
Lemma gte_length_not_exact :
  ¬ (∀ (H : Platform) r e v L,
       GTE.newGTE r = (Some e, None) →
       GTE.hasLength v = true → valueLen v = Some L →
       GTE.gte_Evaluate e v = GTE.lengthGTE L (GTE.ref e)).
Proof.
  intros Hall.
  specialize (Hall Filter.amd64 (VFloat64 GTE.four_and_a_half)
                {| GTE.ref := GTE.four_and_a_half |} (VString "ciao") 4
                eq_refl eq_refl eq_refl).
  vm_compute in Hall. discriminate.
Qed.

(** C4, amended.  Built from a numeric reference [r], the evaluator yields
    on an array, map, slice or string of length [L]: false when the
    value is a nil map or a nil slice, and otherwise the truth value of
    [L >= int(r)], the reference converted to [int]; the elements do not
    matter. *)
Theorem gte_length_truncated `{Platform} r e v L :
  GTE.newGTE r = (Some e, None) →
  GTE.hasLength v = true → valueLen v = Some L →
  (∃ f, convertValue r = VFloat64 f ∧ GTE.ref e = f) ∧
  GTE.gte_Evaluate e v
  = if isNil v then false else L >=? int_of_float64 (GTE.ref e).
Proof.
  intros Hnew Hkind Hlen. split.
  - unfold GTE.newGTE, convertFloatValue in Hnew.
    destruct (convertValue r); try discriminate.
    injection Hnew as <-. eauto.
  - unfold GTE.gte_Evaluate.
    destruct v; try discriminate; simpl in *;
      repeat match goal with
             | x : option _ |- _ => destruct x
             | x : (_ * _)%type |- _ => destruct x
             end; simpl in *; try reflexivity;
      injection Hlen as <-; reflexivity.
Qed.

Lemma gte_length_truncated_witness :
  (∃ f, convertValue (VFloat64 GTE.four_and_a_half) = VFloat64 f ∧ GTE.four_and_a_half = f) ∧
  GTE.gte_Evaluate (H := Filter.amd64) {| GTE.ref := GTE.four_and_a_half |}
    (VSlice (Some ([VInt 1; VInt 2; VInt 3; VInt 4], [])))
  = true.
Proof.
  apply (gte_length_truncated (H := Filter.amd64) (VFloat64 GTE.four_and_a_half)
           {| GTE.ref := GTE.four_and_a_half |}
           (VSlice (Some ([VInt 1; VInt 2; VInt 3; VInt 4], []))) 4);
    reflexivity.
Defined.

End EvaluatorProperties.

(** ** Further properties of the evaluators *)

Module EvaluatorFurther.
Import Coercion.

(** *** Integers as [float64] *)

Lemma digits2_pos_bounds (m : positive) :
  2 ^ (Z.pos (digits2_pos m) - 1) <= Z.pos m < 2 ^ Z.pos (digits2_pos m).
Proof.
  induction m as [m IH|m IH|]; simpl digits2_pos.
  - rewrite Pos2Z.inj_succ, Z.pow_succ_r by lia.
    replace (Z.succ (Z.pos (digits2_pos m)) - 1)
      with (Z.succ (Z.pos (digits2_pos m) - 1)) by lia.
    rewrite Z.pow_succ_r by lia. lia.
  - rewrite Pos2Z.inj_succ, Z.pow_succ_r by lia.
    replace (Z.succ (Z.pos (digits2_pos m)) - 1)
      with (Z.succ (Z.pos (digits2_pos m) - 1)) by lia.
    rewrite Z.pow_succ_r by lia. lia.
  - simpl. lia.
Qed.

Lemma digits2_pos_iter (m k : positive) :
  digits2_pos (Pos.iter xO m k) = (digits2_pos m + k)%positive.
Proof.
  induction k as [|k IH] using Pos.peano_ind.
  - simpl. lia.
  - rewrite Pos.iter_succ. simpl. rewrite IH. lia.
Qed.

Lemma Zpos_iter (m k : positive) :
  Z.pos (Pos.iter xO m k) = Z.pos m * 2 ^ Z.pos k.
Proof.
  induction k as [|k IH] using Pos.peano_ind.
  - simpl. lia.
  - rewrite Pos.iter_succ, Pos2Z.inj_succ, Z.pow_succ_r by lia.
    rewrite Pos2Z.inj_xO, IH. lia.
Qed.

(** A positive integer below [2^53] converts without rounding: the
    mantissa is the integer shifted to 53 digits. *)
Lemma binary_round_exact (sx : bool) (m : positive) :
  Z.pos m < 2 ^ 53 →
  ∃ mz,
    binary_round prec64 emax64 sx m 0
    = S754_finite sx mz (Z.pos (digits2_pos m) - 53) ∧
    Z.pos mz = Z.pos m * 2 ^ (53 - Z.pos (digits2_pos m)) ∧
    Z.pos (digits2_pos m) <= 53.
Proof.
  intros Hm.
  pose proof (digits2_pos_bounds m) as [Hlow _].
  assert (Hd : Z.pos (digits2_pos m) <= 53).
  { destruct (Z.le_gt_cases (Z.pos (digits2_pos m)) 53) as [|Hgt]; [assumption|].
    assert (2 ^ 53 <= 2 ^ (Z.pos (digits2_pos m) - 1))
      by (apply Z.pow_le_mono_r; lia).
    lia. }
  assert (Haligned : ∃ mz,
    shl_align m 0 (fexp prec64 emax64 (Z.pos (digits2_pos m) + 0))
    = (mz, Z.pos (digits2_pos m) - 53) ∧
    Z.pos mz = Z.pos m * 2 ^ (53 - Z.pos (digits2_pos m)) ∧
    Z.pos (digits2_pos mz) = 53).
  { unfold shl_align, fexp, emin, prec64, emax64.
    rewrite Z.add_0_r, Z.sub_0_r, Z.max_l by lia.
    destruct (Z.pos (digits2_pos m) - 53) as [|q|q] eqn:Hq; [|lia|].
    - exists m. replace (53 - Z.pos (digits2_pos m)) with 0 by lia.
      rewrite Z.pow_0_r, Z.mul_1_r. repeat split; lia.
    - exists (Pos.iter xO m q).
      rewrite digits2_pos_iter, Zpos_iter.
      replace (53 - Z.pos (digits2_pos m)) with (Z.pos q) by lia.
      repeat split; lia. }
  destruct Haligned as (mz & Halign & Hmz & Hdz).
  exists mz. split; [|split; assumption].
  unfold binary_round. rewrite Halign.
  assert (Hf : fexp prec64 emax64 (53 + (Z.pos (digits2_pos m) - 53))
               - (Z.pos (digits2_pos m) - 53) = 0).
  { unfold fexp, emin, prec64, emax64. lia. }
  unfold binary_round_aux, shr_fexp, Zdigits2.
  rewrite Hdz, Hf. cbn [shr shr_record_of_loc shr_m loc_of_shr_record
                        round_nearest_even].
  rewrite Hdz, Hf. cbn [shr shr_record_of_loc shr_m].
  unfold emax64, prec64.
  destruct (Z.leb_spec (Z.pos (digits2_pos m) - 53) (1024 - 53));
    [reflexivity | lia].
Qed.

(** The integers of magnitude below [2^53] survive the round trip
    through [float64]. *)
Lemma truncate_float64_of_Z (k : Z) :
  - 2 ^ 53 < k < 2 ^ 53 → truncate (float64_of_Z k) = Some k.
Proof.
  intros Hk. unfold float64_of_Z, binary_normalize.
  assert (Hback : ∀ m mz : positive,
    Z.pos mz = Z.pos m * 2 ^ (53 - Z.pos (digits2_pos m)) →
    Z.pos (digits2_pos m) <= 53 →
    (if 0 <=? Z.pos (digits2_pos m) - 53
     then Z.pos mz * 2 ^ (Z.pos (digits2_pos m) - 53)
     else Z.pos mz / 2 ^ (- (Z.pos (digits2_pos m) - 53))) = Z.pos m).
  { intros m mz Hmz Hd. rewrite Hmz.
    destruct (Z.leb_spec 0 (Z.pos (digits2_pos m) - 53)).
    - replace (53 - Z.pos (digits2_pos m)) with 0 by lia.
      replace (Z.pos (digits2_pos m) - 53) with 0 by lia. simpl. lia.
    - replace (- (Z.pos (digits2_pos m) - 53))
        with (53 - Z.pos (digits2_pos m)) by lia.
      apply Z.div_mul. apply Z.pow_nonzero; lia. }
  destruct k as [|m|m]; [reflexivity| |].
  - destruct (binary_round_exact false m) as (mz & -> & Hmz & Hd); [lia|].
    simpl. rewrite (Hback m mz Hmz Hd). reflexivity.
  - destruct (binary_round_exact true m) as (mz & -> & Hmz & Hd); [lia|].
    simpl. rewrite (Hback m mz Hmz Hd). reflexivity.
Qed.

(** The shape of [float64(k)] for such an integer. *)
Lemma float64_of_Z_shape (k : Z) :
  - 2 ^ 53 < k < 2 ^ 53 →
  match k with
  | Z0 => float64_of_Z k = S754_zero false
  | Zpos m | Zneg m =>
      ∃ mz, float64_of_Z k
            = S754_finite (k <? 0) mz (Z.pos (digits2_pos m) - 53) ∧
            Z.pos mz = Z.pos m * 2 ^ (53 - Z.pos (digits2_pos m)) ∧
            Z.pos (digits2_pos m) <= 53
  end.
Proof.
  intros Hk. destruct k as [|m|m]; [reflexivity| |].
  - apply (binary_round_exact false m). lia.
  - apply (binary_round_exact true m). lia.
Qed.

(** Two integers shifted to 53 digits compare as they do themselves. *)
Lemma compare_aligned (m1 m2 mz1 mz2 : positive) :
  Z.pos mz1 = Z.pos m1 * 2 ^ (53 - Z.pos (digits2_pos m1)) →
  Z.pos mz2 = Z.pos m2 * 2 ^ (53 - Z.pos (digits2_pos m2)) →
  Z.pos (digits2_pos m1) <= 53 → Z.pos (digits2_pos m2) <= 53 →
  match Z.pos (digits2_pos m1) - 53 ?= Z.pos (digits2_pos m2) - 53 with
  | Lt => Lt
  | Gt => Gt
  | Eq => Pos.compare_cont Eq mz1 mz2
  end = (Z.pos m1 ?= Z.pos m2).
Proof.
  intros Hz1 Hz2 Hd1 Hd2.
  pose proof (digits2_pos_bounds m1) as [Hl1 Hu1].
  pose proof (digits2_pos_bounds m2) as [Hl2 Hu2].
  destruct (Z.compare_spec (Z.pos (digits2_pos m1) - 53)
                           (Z.pos (digits2_pos m2) - 53)) as [Heq|Hlt|Hgt].
  - assert (Hd : Z.pos (digits2_pos m1) = Z.pos (digits2_pos m2)) by lia.
    rewrite Hd in Hz1.
    change (Pos.compare_cont Eq mz1 mz2) with (Z.pos mz1 ?= Z.pos mz2).
    rewrite Hz1, Hz2. symmetry. apply Zmult_compare_compat_r.
    apply Z.lt_gt, Z.pow_pos_nonneg; lia.
  - symmetry. apply Z.compare_lt_iff.
    assert (2 ^ Z.pos (digits2_pos m1) <= 2 ^ (Z.pos (digits2_pos m2) - 1))
      by (apply Z.pow_le_mono_r; lia).
    lia.
  - symmetry. apply Z.compare_gt_iff.
    assert (2 ^ Z.pos (digits2_pos m2) <= 2 ^ (Z.pos (digits2_pos m1) - 1))
      by (apply Z.pow_le_mono_r; lia).
    lia.
Qed.

(** Integers of magnitude below [2^53] compare as [float64] values the
    way they compare as integers. *)
Lemma SFcompare_float64_of_Z (k n : Z) :
  - 2 ^ 53 < k < 2 ^ 53 → - 2 ^ 53 < n < 2 ^ 53 →
  SFcompare (float64_of_Z k) (float64_of_Z n) = Some (k ?= n).
Proof.
  intros Hk Hn.
  pose proof (float64_of_Z_shape k Hk) as Sk.
  pose proof (float64_of_Z_shape n Hn) as Sn.
  destruct k as [|a|a], n as [|b|b];
    repeat match goal with
           | H : ∃ _, _ |- _ => destruct H as (? & -> & ? & ?)
           | H : float64_of_Z _ = _ |- _ => rewrite H
           end; try reflexivity.
  - simpl. f_equal. apply compare_aligned; assumption.
  - simpl. f_equal.
    match goal with
    | |- context [Pos.compare_cont Eq ?u ?v] =>
        pose proof (compare_aligned a b u v ltac:(assumption) ltac:(assumption)
                      ltac:(assumption) ltac:(assumption)) as Hc
    end.
    change (Z.pos a ?= Z.pos b) with (a ?= b)%positive in Hc.
    rewrite <- Hc.
    destruct (Z.pos (digits2_pos a) - 53 ?= Z.pos (digits2_pos b) - 53);
      reflexivity.
Qed.

(** *** GTE *)

(** X18.  For an integer reference [k] and an integer input [n], both of
    magnitude below [2^53], the evaluator yields the truth value of
    [n >= k]: the passage through [float64] loses nothing. *)
Theorem gte_integers_exact `{Platform} (k n : Z) e :
  - 2 ^ 53 < k < 2 ^ 53 → - 2 ^ 53 < n < 2 ^ 53 →
  GTE.newGTE (VInt k) = (Some e, None) →
  GTE.gte_Evaluate e (VInt n) = (n >=? k).
Proof.
  intros Hk Hn [= <-].
  unfold GTE.gte_Evaluate, GTE.float64_ge, SFleb. simpl.
  rewrite (SFcompare_float64_of_Z k n Hk Hn).
  rewrite Z.geb_leb. unfold Z.leb. destruct (k ?= n); reflexivity.
Qed.

(** X19.  For an integer reference [k] of magnitude below [2^53] and an
    array, map, slice or string that is not nil, of length [L], the
    evaluator yields the truth value of [L >= k]. *)
Theorem gte_integer_reference_on_length `{Platform} (k : Z) e v L :
  - 2 ^ 53 < k < 2 ^ 53 →
  GTE.newGTE (VInt k) = (Some e, None) →
  GTE.hasLength v = true → isNil v = false → valueLen v = Some L →
  GTE.gte_Evaluate e v = (L >=? k).
Proof.
  intros Hk [= <-] Hkind Hnil Hlen.
  assert (Hint : int_of_float64 (float64_of_Z k) = k).
  { unfold int_of_float64. rewrite (truncate_float64_of_Z k Hk).
    unfold minInt, maxInt.
    destruct (Z.leb_spec (- 2 ^ 63) k); [|lia].
    destruct (Z.leb_spec k (2 ^ 63 - 1)); [reflexivity | lia]. }
  unfold GTE.gte_Evaluate.
  destruct v; try discriminate; simpl in *;
    repeat match goal with
           | x : option _ |- _ => destruct x
           | x : (_ * _)%type |- _ => destruct x
           end; simpl in *; try discriminate;
    injection Hlen as <-; rewrite Hint; reflexivity.
Qed.

Lemma gte_on_length `{Platform} e v L :
  GTE.hasLength v = true → isNil v = false → valueLen v = Some L →
  GTE.gte_Evaluate e v = (L >=? int_of_float64 (GTE.ref e)).
Proof.
  intros Hkind Hnil Hlen. unfold GTE.gte_Evaluate.
  destruct v; try discriminate; simpl in *;
    repeat match goal with
           | x : option _ |- _ => destruct x
           | x : (_ * _)%type |- _ => destruct x
           end; simpl in *; try discriminate;
    injection Hlen as <-; reflexivity.
Qed.

(** X20.  The evaluator is monotone in the length: when it accepts an
    array, map, slice or string, it accepts every such value that is not
    nil and at least as long. *)
Theorem gte_monotone_in_length `{Platform} e v v' L L' :
  GTE.hasLength v = true → isNil v = false → valueLen v = Some L →
  GTE.hasLength v' = true → isNil v' = false → valueLen v' = Some L' →
  L <= L' →
  GTE.gte_Evaluate e v = true → GTE.gte_Evaluate e v' = true.
Proof.
  intros Hk Hn Hl Hk' Hn' Hl' Hle.
  rewrite (gte_on_length e v L), (gte_on_length e v' L') by assumption.
  rewrite !Z.geb_leb, !Z.leb_le. lia.
Qed.

(** X21.  The evaluator yields false, whatever the reference, on the nil
    interface, a nil pointer, a nil map, a nil slice, and on booleans,
    structs and values of the other kinds it does not compare. *)
Theorem gte_soft_non_match `{Platform} e v :
  isNil v = true ∨ kindOf v = KBool ∨ kindOf v = KStruct ∨ kindOf v = KOther →
  GTE.gte_Evaluate e v = false.
Proof.
  unfold GTE.gte_Evaluate.
  intros [Hnil|[Hk|[Hk|Hk]]]; destruct v; try discriminate; simpl in *;
    repeat match goal with
           | x : option _ |- _ => destruct x
           end; try discriminate; reflexivity.
Qed.

(** *** HasSuffix *)

Lemma substring_none (s : string) : substring 0 0 s = EmptyString.
Proof. destruct s; reflexivity. Qed.

Lemma substring_split (n : nat) : ∀ s : string,
  (n <= String.length s)%nat →
  (substring 0 n s ++ substring n (String.length s - n) s)%string = s.
Proof.
  induction n as [|n IH]; intros s Hn.
  - rewrite substring_none, Nat.sub_0_r. simpl.
    apply EvaluatorProperties.substring_whole.
  - destruct s as [|c s]; simpl in *; [lia|].
    change (String c (substring 0 n s ++ substring n (String.length s - n) s)%string
            = String c s).
    rewrite IH by lia. reflexivity.
Qed.

Lemma append_empty_r (s : string) : (s ++ EmptyString)%string = s.
Proof.
  induction s as [|c s IH]; [reflexivity|].
  change (String c (s ++ EmptyString)%string = String c s).
  rewrite IH. reflexivity.
Qed.

Lemma strings_HasSuffix_iff (s suffix : string) :
  HasSuffix.strings_HasSuffix s suffix = true
  ↔ ∃ front, s = (front ++ suffix)%string.
Proof.
  split.
  - unfold HasSuffix.strings_HasSuffix.
    intros [Hlen Heq]%andb_true_iff.
    apply Nat.leb_le in Hlen. apply String.eqb_eq in Heq.
    exists (substring 0 (String.length s - String.length suffix) s).
    pose proof (substring_split (String.length s - String.length suffix) s
                  ltac:(lia)) as Hsplit.
    replace (String.length s - (String.length s - String.length suffix))%nat
      with (String.length suffix) in Hsplit by lia.
    rewrite Heq in Hsplit. symmetry. exact Hsplit.
  - intros [front ->]. apply EvaluatorProperties.strings_HasSuffix_append.
Qed.

(** X22.  The evaluator built from [suffix] yields true exactly on the
    strings that end with [suffix]; so it accepts every string when the
    suffix is empty and no string shorter than the suffix. *)
Theorem HasSuffix_exactly_the_suffixed suffix ev v :
  HasSuffix.newHasSuffix (VString suffix) = (Some ev, None) →
  (Evaluate ev v = true ↔ ∃ front, v = VString (front ++ suffix)) ∧
  (suffix = EmptyString → ∀ s, Evaluate ev (VString s) = true) ∧
  (∀ s, (String.length s < String.length suffix)%nat →
        Evaluate ev (VString s) = false).
Proof.
  intros [= <-]. split; [|split].
  - unfold Evaluate, HasSuffix.evalHasSuffix_Evaluator. split.
    + destruct v; simpl; try discriminate.
      intros [front ->]%strings_HasSuffix_iff. eauto.
    + intros [front ->]. simpl. apply strings_HasSuffix_iff. eauto.
  - intros -> s. unfold Evaluate, HasSuffix.evalHasSuffix_Evaluator. simpl.
    apply strings_HasSuffix_iff. exists s. symmetry. apply append_empty_r.
  - intros s Hshort. unfold Evaluate, HasSuffix.evalHasSuffix_Evaluator. simpl.
    unfold HasSuffix.strings_HasSuffix.
    destruct (Nat.leb_spec (String.length suffix) (String.length s)); [lia|].
    reflexivity.
Qed.

(** *** The further properties at concrete values *)

Lemma gte_integers_exact_witness :
  GTE.gte_Evaluate (H := Filter.amd64) {| GTE.ref := float64_of_Z 5 |} (VInt 6)
  = (6 >=? 5).
Proof.
  apply (gte_integers_exact (H := Filter.amd64) 5 6); [lia | lia | reflexivity].
Defined.

Lemma gte_integer_reference_on_length_witness :
  GTE.gte_Evaluate (H := Filter.amd64) {| GTE.ref := float64_of_Z 4 |}
    (VString "ciao")
  = (4 >=? 4).
Proof.
  apply (gte_integer_reference_on_length (H := Filter.amd64) 4);
    [lia | reflexivity | reflexivity | reflexivity | reflexivity].
Defined.

Lemma gte_monotone_in_length_witness :
  GTE.gte_Evaluate (H := Filter.amd64) {| GTE.ref := float64_of_Z 4 |}
    (VSlice (Some ([VInt 1; VInt 2; VInt 3; VInt 4; VInt 5], [])))
  = true.
Proof.
  apply (gte_monotone_in_length (H := Filter.amd64) {| GTE.ref := float64_of_Z 4 |}
           (VString "ciao")
           (VSlice (Some ([VInt 1; VInt 2; VInt 3; VInt 4; VInt 5], []))) 4 5);
    (lia || reflexivity).
Defined.

Lemma gte_soft_non_match_witness :
  GTE.gte_Evaluate (H := Filter.amd64) {| GTE.ref := float64_of_Z 0 |} (VSlice None)
  = false.
Proof.
  apply (gte_soft_non_match (H := Filter.amd64)). left. reflexivity.
Defined.

Lemma HasSuffix_exactly_the_suffixed_witness :
  Evaluate {| HasSuffix.ref := "err" |} (VString "er") = false.
Proof.
  destruct (HasSuffix_exactly_the_suffixed "err" {| HasSuffix.ref := "err" |}
              (VString "er") eq_refl) as (_ & _ & Hshort).
  apply Hshort. simpl. lia.
Defined.

End EvaluatorFurther.
